(** * torch/_dynamo/trace_rules.py : the trace classification resolver

    A shallow embedding of [trace_rules.py] and the properties of its
    qualified-name resolver, rule table construction and [lookup]
    precedence chain.

    Python values are references: an object is its identity ([id(obj)]),
    and everything else about it is read from a heap.  Exceptions are the
    [Err] side of a result type that is threaded through every call. *)

From Stdlib Require Import List String Ascii Bool ZArith Lia.
Import ListNotations.
Open Scope string_scope.
Open Scope Z_scope.

(** ** Exceptions and the result monad *)

Inductive exn : Type :=
  | AttributeError
  | ModuleNotFoundError
  | AssertionError (msg : string)
  | ValueError
  | TypeError
  | OtherException (name : string).

Inductive Res (A : Type) : Type :=
  | Ok (a : A)
  | Err (e : exn).
Arguments Ok {A} a.
Arguments Err {A} e.

Definition bind {A B : Type} (m : Res A) (k : A -> Res B) : Res B :=
  match m with
  | Ok a => k a
  | Err e => Err e
  end.

Notation "x <- m ;; k" := (bind m (fun x => k))
  (at level 61, m at next level, right associativity).

(** ** Objects *)

(** [id(obj)]. *)
Definition ref := Z.

(** The types [lookup] and [is_in_graph_function] test with [isinstance]. *)
Inductive Kind : Type :=
  | KStr                 (* str *)
  | KFunction            (* types.FunctionType *)
  | KMethod              (* types.MethodType *)
  | KBuiltinFunction     (* types.BuiltinFunctionType *)
  | KMethodDescriptor    (* types.MethodDescriptorType *)
  | KWrapperDescriptor   (* types.WrapperDescriptorType *)
  | KOpOverloadPacket    (* torch._ops.OpOverloadPacket *)
  | KOpOverload          (* torch._ops.OpOverload *)
  | KOther.

Definition Kind_eqb (a b : Kind) : bool :=
  match a, b with
  | KStr, KStr | KFunction, KFunction | KMethod, KMethod
  | KBuiltinFunction, KBuiltinFunction
  | KMethodDescriptor, KMethodDescriptor
  | KWrapperDescriptor, KWrapperDescriptor
  | KOpOverloadPacket, KOpOverloadPacket
  | KOpOverload, KOpOverload | KOther, KOther => true
  | _, _ => false
  end.

(** How an object behaves as a dict or set key: [__hash__] and [__eq__].
    [ByIdentity] is [object]'s default; [ByValue r] is a type that hashes
    and compares its external representation [r] (str, tuples, bound
    methods, which compare their [__self__] and function);
    [Unhashable] is a type whose [hash()] raises. *)
Inductive KeyMode : Type :=
  | ByIdentity
  | ByValue (repr : string)
  | Unhashable.

Record PyObject : Type := mkPyObject {
  ob_kind : Kind;
  ob_key : KeyMode;
  ob_str : string;                  (* str(obj) *)
  ob_attrs : list (string * ref)    (* what getattr finds, in dir() order *)
}.

(** The three tracing rules ([.variables]). *)
Inductive Rule : Type :=
  | ConstantVariable
  | TorchCtxManagerClassVariable
  | TorchInGraphFunctionVariable.

(** What the module reads from outside itself. *)
Record Env : Type := mkEnv {
  heap : ref -> PyObject;
  import_module : string -> Res ref;          (* importlib.import_module *)
  _disallowed_function_ids : list ref;        (* .allowed_functions *)
  is_allowed : ref -> bool;                   (* .allowed_functions *)
  is_user_defined_allowed : ref -> bool;      (* .allowed_functions *)
  torch_Tensor : ref                          (* torch.Tensor *)
}.

(** ** str methods *)

(** [s.split(sep)] for a one-character [sep]. *)
Fixpoint split (sep : ascii) (s : string) : list string :=
  match s with
  | EmptyString => [EmptyString]
  | String c s' =>
      if Ascii.eqb c sep then EmptyString :: split sep s'
      else match split sep s' with
           | w :: ws => String c w :: ws
           | [] => [String c EmptyString]
           end
  end.

(** [s.rsplit(sep, maxsplit=1)] for a one-character [sep]. *)
Fixpoint rsplit1 (sep : ascii) (s : string) : list string :=
  match s with
  | EmptyString => [EmptyString]
  | String c s' =>
      match rsplit1 sep s' with
      | [w] => if Ascii.eqb c sep then [EmptyString; w] else [String c w]
      | w :: ws => String c w :: ws
      | [] => [String c EmptyString]
      end
  end.

(** [s.count(c)]. *)
Fixpoint count_char (c : ascii) (s : string) : nat :=
  match s with
  | EmptyString => 0%nat
  | String c' s' => ((if Ascii.eqb c' c then 1 else 0) + count_char c s')%nat
  end.

(** [s.startswith(p)]. *)
Definition startswith (s p : string) : bool := String.prefix p s.

(** ** dict and frozenset *)

(** [{...}] with str keys, in insertion order. *)
Definition NameDict := list (string * Rule).

Fixpoint name_get (d : NameDict) (k : string) : option Rule :=
  match d with
  | [] => None
  | (k', v) :: d' => if String.eqb k' k then Some v else name_get d' k
  end.

(** [d[k] = v]: an existing key keeps its position. *)
Fixpoint name_set (d : NameDict) (k : string) (v : Rule) : NameDict :=
  match d with
  | [] => [(k, v)]
  | (k', v') :: d' =>
      if String.eqb k' k then (k', v) :: d' else (k', v') :: name_set d' k v
  end.

(** [d.update(items)]. *)
Definition name_update (d : NameDict) (items : list (string * Rule)) : NameDict :=
  fold_left (fun acc kv => name_set acc (fst kv) (snd kv)) items d.

(** A dict display [{k1: v1, ...}]. *)
Definition name_dict (items : list (string * Rule)) : NameDict :=
  name_update [] items.

(** [{**a, **b}]. *)
Definition dict_unpack2 (a b : NameDict) : NameDict :=
  name_update (name_update [] a) b.

(** A dict keyed by objects, in insertion order. *)
Definition ObjDict := list (ref * Rule).

Section Model.

Variable E : Env.

Definition kind_of (o : ref) : Kind := ob_kind (heap E o).
Definition key_of (o : ref) : KeyMode := ob_key (heap E o).

(** Modelled from the spec: [hashable] of [.utils], whose source is not
    part of this module: whether the object "can be used as a set/map
    key", that is whether [hash(obj)] returns. *)
Definition hashable (o : ref) : bool :=
  match key_of o with
  | Unhashable => false
  | _ => true
  end.

(** Two keys land on the same dict slot when they are the same object, or
    have equal hashes and compare equal with [==]. *)
Definition key_eq (a b : ref) : bool :=
  Z.eqb a b
  || match key_of a, key_of b with
     | ByValue x, ByValue y => String.eqb x y
     | _, _ => false
     end.

Fixpoint assoc_get (d : ObjDict) (k : ref) : option Rule :=
  match d with
  | [] => None
  | (k', v) :: d' => if key_eq k' k then Some v else assoc_get d' k
  end.

Fixpoint assoc_set (d : ObjDict) (k : ref) (v : Rule) : ObjDict :=
  match d with
  | [] => [(k, v)]
  | (k', v') :: d' =>
      if key_eq k' k then (k', v) :: d' else (k', v') :: assoc_set d' k v
  end.

(** [d.get(k, None)]: hashes [k] first. *)
Definition dict_get (d : ObjDict) (k : ref) : Res (option Rule) :=
  if hashable k then Ok (assoc_get d k) else Err TypeError.

(** [d[k] = v]: hashes [k] first. *)
Definition dict_set (d : ObjDict) (k : ref) (v : Rule) : Res ObjDict :=
  if hashable k then Ok (assoc_set d k v) else Err TypeError.

(** [s.add(k)]. *)
Definition set_add (s : list ref) (k : ref) : Res (list ref) :=
  if hashable k then
    Ok (if existsb (fun k' => key_eq k' k) s then s else (s ++ [k])%list)
  else Err TypeError.

(** [k in s], for a key that is not itself a [set] (an unhashable [set]
    is looked up again as a [frozenset] by CPython, and not modelled). *)
Definition set_contains (s : list ref) (k : ref) : Res bool :=
  if hashable k then Ok (existsb (fun k' => key_eq k' k) s) else Err TypeError.

(** ** Attributes *)

Fixpoint attr_find (l : list (string * ref)) (name : string) : option ref :=
  match l with
  | [] => None
  | (n, r) :: l' => if String.eqb n name then Some r else attr_find l' name
  end.

(** [getattr(o, name)] for objects with plain attributes: the attribute is
    there, or [AttributeError] is raised.  Attribute hooks and properties
    that raise something else are outside the model. *)
Definition getattr (o : ref) (name : string) : Res ref :=
  match attr_find (ob_attrs (heap E o)) name with
  | Some r => Ok r
  | None => Err AttributeError
  end.

Definition hasattr (o : ref) (name : string) : bool :=
  match getattr o name with
  | Ok _ => true
  | Err _ => false
  end.

Definition dir (o : ref) : list string := map fst (ob_attrs (heap E o)).

(** [isinstance(o, (k1, k2, ...))]. *)
Definition isinstance (o : ref) (ks : list Kind) : bool :=
  existsb (Kind_eqb (kind_of o)) ks.

(** ** The qualified-name resolver *)

Definition _load_obj_from_str (fully_qualified_name : string) : Res ref :=
  match rsplit1 "." fully_qualified_name with
  | [module; obj_name] =>
      m <- import_module E module ;;
      getattr m obj_name
  | _ => Err ValueError
  end.

Definition load_object (name : string) : Res ref :=
  let x := split "#" name in
  val <- (if Nat.eqb (List.length x) 2 then
            obj <- _load_obj_from_str (nth 0 x "") ;;
            getattr obj (nth 1 x "")
          else if Nat.eqb (List.length x) 1 then
            _load_obj_from_str (nth 0 x "")
          else Err (AssertionError ("Invalid obj name " ++ name))) ;;
  if hasattr val "__wrapped__" then getattr val "__wrapped__" else Ok val.

(** ** The rule table *)

(** What [except (AttributeError, ModuleNotFoundError)] catches. *)
Definition caught (e : exn) : bool :=
  match e with
  | AttributeError | ModuleNotFoundError => true
  | _ => false
  end.

(** One turn of the loop of [get_torch_obj_rule_map]. *)
Definition rule_map_step (d : ObjDict) (kv : string * Rule) : Res ObjDict :=
  match (obj <- load_object (fst kv) ;; dict_set d obj (snd kv)) with
  | Ok d' => Ok d'
  | Err e => if caught e then Ok d else Err e
  end.

Fixpoint rule_map_loop (items : list (string * Rule)) (d : ObjDict)
  : Res ObjDict :=
  match items with
  | [] => Ok d
  | kv :: rest =>
      d' <- rule_map_step d kv ;;
      rule_map_loop rest d'
  end.

(** [torch_name_rule_map] is the module global the function reads. *)
Definition get_torch_obj_rule_map (torch_name_rule_map : NameDict)
  : Res ObjDict :=
  rule_map_loop torch_name_rule_map [].

(** ** Tensor methods *)

Fixpoint tensor_method_loop (names : list string) (s : list ref)
  : Res (list ref) :=
  match names with
  | [] => Ok s
  | name :: rest =>
      method <- getattr (torch_Tensor E) name ;;
      s' <- (if isinstance method [KMethodDescriptor; KWrapperDescriptor]
             then set_add s method else Ok s) ;;
      tensor_method_loop rest s'
  end.

Definition get_tensor_method : Res (list ref) :=
  tensor_method_loop (dir (torch_Tensor E)) [].

Definition is_in_graph_function (obj : ref) : Res bool :=
  s <- get_tensor_method ;;
  in_s <- set_contains s obj ;;
  if in_s || isinstance obj [KOpOverloadPacket; KOpOverload] then Ok true
  else if isinstance obj [KFunction; KMethod; KBuiltinFunction;
                          KMethodDescriptor; KWrapperDescriptor]
  then Ok (is_allowed E obj)
  else Ok false.

(** ** lookup *)

(** [str(obj.__qualname__)]. *)
Definition qualname_str (obj : ref) : Res string :=
  q <- getattr obj "__qualname__" ;;
  Ok (ob_str (heap E q)).

(** Lines 189-195: the object the rest of [lookup] works on. *)
Definition unwrap_guard (obj : ref) : Res ref :=
  if hasattr obj "__wrapped__" then
    if hasattr obj "__qualname__"
       && match qualname_str obj with
          | Ok q => startswith q "_VariableFunctionsClass"
          | Err _ => false
          end
    then Ok obj
    else getattr obj "__wrapped__"
  else Ok obj.

(** Lines 196-200: rule table, then the generic fallback. *)
Definition rule_or_fallback (torch_name_rule_map : NameDict) (obj : ref)
  : Res (option Rule) :=
  table <- get_torch_obj_rule_map torch_name_rule_map ;;
  rule <- dict_get table obj ;;
  match rule with
  | None =>
      g <- is_in_graph_function obj ;;
      if g then Ok (Some TorchInGraphFunctionVariable) else Ok rule
  | Some _ => Ok rule
  end.

Definition lookup (torch_name_rule_map : NameDict) (obj : ref)
  : Res (option Rule) :=
  if negb (hashable obj) then Ok None
  else if existsb (Z.eqb obj) (_disallowed_function_ids E) then Ok None
  else if is_user_defined_allowed E obj
  then Ok (Some TorchInGraphFunctionVariable)
  else if isinstance obj [KStr] then Ok (Some ConstantVariable)
  else
    obj' <- unwrap_guard obj ;;
    rule_or_fallback torch_name_rule_map obj'.

End Model.

(** [obj.__qualname__] exists and its [str()] starts with the name of
    the flattened function container. *)
Definition has_reserved_qualname (E : Env) (obj : ref) : bool :=
  match getattr E obj "__qualname__" with
  | Ok q => startswith (ob_str (heap E q)) "_VariableFunctionsClass"
  | Err _ => false
  end.

(** The three shapes the generic fallback accepts (lines 153-168). *)
Definition native_tensor_method (E : Env) (s : list ref) (obj : ref) : bool :=
  existsb (fun k' => key_eq E k' obj) s.

Definition is_op_overload (E : Env) (obj : ref) : bool :=
  isinstance E obj [KOpOverloadPacket; KOpOverload].

Definition is_function_like (E : Env) (obj : ref) : bool :=
  isinstance E obj [KFunction; KMethod; KBuiltinFunction;
                    KMethodDescriptor; KWrapperDescriptor].


(** Lines 124-126 of [load_object]: the value, or what its [__wrapped__]
    refers to. *)
Definition unwrap_once (E : Env) (val : ref) : ref :=
  match getattr E val "__wrapped__" with
  | Ok w => w
  | Err _ => val
  end.

(** An entry the loop of [get_torch_obj_rule_map] gets past: its name
    loads to a hashable object, or fails to load with an exception the
    handler lists. *)
Definition entry_ok (E : Env) (kv : string * Rule) : bool :=
  match load_object E (fst kv) with
  | Ok o => hashable E o
  | Err e => caught e
  end.

(** No two keys of the dict share a slot. *)
Fixpoint distinct_keys (E : Env) (d : ObjDict) : bool :=
  match d with
  | [] => true
  | (k, _) :: d' =>
      negb (existsb (fun kv => key_eq E k (fst kv)) d') && distinct_keys E d'
  end.

(** ** The rule names the module ships (lines 47-87) *)

Module Shipped.

Definition manual_torch_name_rule_map : NameDict := name_dict [
  ("torch.profiler.profiler.profile", TorchCtxManagerClassVariable);
  ("torch.autograd.profiler.profile", TorchCtxManagerClassVariable);
  ("torch.autograd.profiler.record_function", TorchCtxManagerClassVariable);
  ("torch.default_generator#get_state", TorchInGraphFunctionVariable);
  ("torch._C.Generator#get_state", TorchInGraphFunctionVariable);
  ("torch.default_generator#set_state", TorchInGraphFunctionVariable);
  ("torch._C.Generator#set_state", TorchInGraphFunctionVariable);
  ("torch.onnx.is_in_onnx_export", TorchInGraphFunctionVariable);
  ("torch.onnx.operators.shape_as_tensor", TorchInGraphFunctionVariable);
  ("torch.overrides.is_tensor_like", TorchInGraphFunctionVariable);
  ("torch.jit.is_scripting", TorchInGraphFunctionVariable);
  ("torch.jit.is_tracing", TorchInGraphFunctionVariable);
  ("torch.jit.annotate", TorchInGraphFunctionVariable);
  ("torch.distributed.is_available", TorchInGraphFunctionVariable);
  ("torch.distributed.is_initialized", TorchInGraphFunctionVariable);
  ("torch.distributed.get_rank", TorchInGraphFunctionVariable);
  ("torch.distributed.get_world_size", TorchInGraphFunctionVariable);
  ("torch.distributed._tensor.DTensor#from_local", TorchInGraphFunctionVariable);
  ("torch._utils.is_compiling", TorchInGraphFunctionVariable);
  ("torch.overrides.get_default_nowrap_functions", TorchInGraphFunctionVariable);
  ("torch.fx._symbolic_trace.is_fx_tracing", TorchInGraphFunctionVariable);
  ("torch._dynamo.external_utils.is_compiling", TorchInGraphFunctionVariable);
  ("torch.autograd.graph.disable_saved_tensors_hooks", TorchInGraphFunctionVariable)
].

Definition auto_torch_name_rule_map : NameDict := name_dict [
  ("torch._C.DisableTorchFunctionSubclass", TorchCtxManagerClassVariable);
  ("torch.amp.autocast_mode.autocast", TorchCtxManagerClassVariable);
  ("torch.autograd.grad_mode.enable_grad", TorchCtxManagerClassVariable);
  ("torch.autograd.grad_mode.inference_mode", TorchCtxManagerClassVariable);
  ("torch.autograd.grad_mode.no_grad", TorchCtxManagerClassVariable);
  ("torch.autograd.grad_mode.set_grad_enabled", TorchCtxManagerClassVariable);
  ("torch.cpu.amp.autocast_mode.autocast", TorchCtxManagerClassVariable);
  ("torch.cuda.amp.autocast_mode.autocast", TorchCtxManagerClassVariable)
].

Definition torch_name_rule_map : NameDict :=
  dict_unpack2 manual_torch_name_rule_map auto_torch_name_rule_map.

End Shipped.

(** The part of a rule name before its first ['#']: [name.split("#")[0]]. *)
Definition path_part (name : string) : string := nth 0 (split "#" name) "".

(** A rule name [load_object] can take apart: at most one ['#'], and a
    ['.'] in the part before it. *)
Definition well_formed_name (name : string) : bool :=
  Nat.leb (count_char "#" name) 1
  && negb (Nat.eqb (count_char "." (path_part name)) 0).

(** ** A small world of objects to run the definitions on *)

Module World.

Definition obj (k : Kind) (key : KeyMode) (s : string)
  (attrs : list (string * ref)) : PyObject := mkPyObject k key s attrs.

Definition heap (r : ref) : PyObject :=
  match r with
  | 1 => obj KOther ByIdentity "<module 'm'>"
           [("f", 10); ("g", 10); ("gen", 20); ("Ctx", 30); ("deco", 40);
            ("table", 75)]
  | 2 => obj KOther ByIdentity "<class 'torch.Tensor'>"
           [("add", 80); ("__repr__", 81); ("__add__", 82)]
  | 10 => obj KFunction ByIdentity "<function f>" [("__qualname__", 100)]
  | 20 => obj KOther ByIdentity "<Generator>" [("get_state", 21)]
  | 21 => obj KBuiltinFunction (ByValue "gen.get_state")
            "<built-in method get_state>" []
  | 22 => obj KBuiltinFunction (ByValue "gen.get_state")
            "<built-in method get_state>" []
  | 30 => obj KOther ByIdentity "<class 'm.Ctx'>" [("__qualname__", 103)]
  | 40 => obj KFunction ByIdentity "<function deco>"
            [("__wrapped__", 41); ("__qualname__", 101)]
  | 41 => obj KFunction ByIdentity "<function orig>" [("__qualname__", 101)]
  | 50 => obj KBuiltinFunction ByIdentity "<built-in method add>"
            [("__wrapped__", 51); ("__qualname__", 102)]
  | 51 => obj KFunction ByIdentity "<function add>" []
  | 60 => obj KStr (ByValue "hello") "hello" []
  | 61 => obj KStr (ByValue "hello") "hello" []
  | 70 => obj KFunction ByIdentity "<function call>"
            [("__wrapped__", 71); ("__qualname__", 104)]
  | 71 => obj KOther Unhashable "Callable()" []
  | 75 => obj KOther Unhashable "[]" []
  | 80 => obj KMethodDescriptor ByIdentity "<method 'add'>" []
  | 81 => obj KFunction ByIdentity "<function Tensor.__repr__>" []
  | 82 => obj KWrapperDescriptor ByIdentity "<slot wrapper '__add__'>" []
  | 90 => obj KOpOverload ByIdentity "aten.add.Tensor" []
  | 100 => obj KStr (ByValue "f") "f" []
  | 101 => obj KStr (ByValue "deco") "deco" []
  | 102 => obj KStr (ByValue "_VariableFunctionsClass.add")
             "_VariableFunctionsClass.add" []
  | 103 => obj KStr (ByValue "Ctx") "Ctx" []
  | 104 => obj KStr (ByValue "call") "call" []
  | _ => obj KOther ByIdentity "<object>" []
  end.

Definition import_module (name : string) : Res ref :=
  if String.eqb name "m" then Ok 1 else Err ModuleNotFoundError.

(** Nothing disallowed, nothing allowed. *)
Definition env : Env :=
  mkEnv heap import_module [] (fun _ => false) (fun _ => false) 2.

Definition with_disallowed (ids : list ref) : Env :=
  mkEnv heap import_module ids (fun _ => false) (fun _ => false) 2.

Definition with_user_allowed (ids : list ref) : Env :=
  mkEnv heap import_module [] (fun _ => false)
        (fun o => existsb (Z.eqb o) ids) 2.

Definition with_allowed (ids : list ref) : Env :=
  mkEnv heap import_module [] (fun o => existsb (Z.eqb o) ids)
        (fun _ => false) 2.

End World.

(** ** Running the code *)

Example split_two : split "#" "torch._C.Generator#get_state"
                    = ["torch._C.Generator"; "get_state"].
Proof. reflexivity. Qed.

Example split_none : split "#" "torch.jit.annotate" = ["torch.jit.annotate"].
Proof. reflexivity. Qed.

Example split_empty : split "#" "" = [""].
Proof. reflexivity. Qed.

Example split_three : split "#" "a#b#c" = ["a"; "b"; "c"].
Proof. reflexivity. Qed.

Example rsplit1_last_dot : rsplit1 "." "torch.jit.annotate"
                           = ["torch.jit"; "annotate"].
Proof. reflexivity. Qed.

Example rsplit1_no_dot : rsplit1 "." "torch" = ["torch"].
Proof. reflexivity. Qed.

Example rsplit1_leading_dot : rsplit1 "." ".x" = [""; "x"].
Proof. reflexivity. Qed.

Example shipped_names_well_formed :
  forallb (fun kv => well_formed_name (fst kv)) Shipped.torch_name_rule_map
  = true.
Proof. vm_compute. reflexivity. Qed.

Example shipped_no_collision :
  List.length Shipped.torch_name_rule_map = 31%nat.
Proof. vm_compute. reflexivity. Qed.

Example load_plain : load_object World.env "m.f" = Ok 10.
Proof. reflexivity. Qed.

Example load_member : load_object World.env "m.gen#get_state" = Ok 21.
Proof. reflexivity. Qed.

Example load_unwraps : load_object World.env "m.deco" = Ok 41.
Proof. reflexivity. Qed.

Example load_missing_module :
  load_object World.env "nope.f" = Err ModuleNotFoundError.
Proof. reflexivity. Qed.

Example load_missing_attr : load_object World.env "m.nope" = Err AttributeError.
Proof. reflexivity. Qed.

Example tensor_methods : get_tensor_method World.env = Ok [80; 82].
Proof. reflexivity. Qed.

Example table_example :
  get_torch_obj_rule_map World.env
    [("m.Ctx", TorchCtxManagerClassVariable); ("nope.f", ConstantVariable);
     ("m.deco", TorchInGraphFunctionVariable)]
  = Ok [(30, TorchCtxManagerClassVariable); (41, TorchInGraphFunctionVariable)].
Proof. reflexivity. Qed.

Example lookup_context_manager :
  lookup World.env [("m.Ctx", TorchCtxManagerClassVariable)] 30
  = Ok (Some TorchCtxManagerClassVariable).
Proof. reflexivity. Qed.

Example lookup_native_method :
  lookup World.env [("m.Ctx", TorchCtxManagerClassVariable)] 80
  = Ok (Some TorchInGraphFunctionVariable).
Proof. reflexivity. Qed.

Example lookup_no_rule :
  lookup World.env [("m.Ctx", TorchCtxManagerClassVariable)] 10 = Ok None.
Proof. reflexivity. Qed.

(** ** Facts about the str methods *)

Lemma split_nonempty (sep : ascii) (s : string) : split sep s <> [].
Proof.
  destruct s as [|c s]; simpl; [discriminate|].
  destruct (Ascii.eqb c sep); [discriminate|].
  destruct (split sep s); discriminate.
Qed.

Lemma split_length (sep : ascii) (s : string) :
  List.length (split sep s) = S (count_char sep s).
Proof.
  induction s as [|c s IH]; simpl; [reflexivity|].
  destruct (Ascii.eqb c sep); simpl.
  - now rewrite IH.
  - destruct (split sep s) as [|w ws] eqn:Hs.
    + now destruct (split_nonempty sep s).
    + simpl in *. exact IH.
Qed.

Lemma rsplit1_no_sep (sep : ascii) (s : string) :
  count_char sep s = 0%nat -> rsplit1 sep s = [s].
Proof.
  induction s as [|c s IH]; simpl; [reflexivity|].
  destruct (Ascii.eqb c sep); simpl; [discriminate|].
  intros H. now rewrite (IH H).
Qed.

(** ** Facts about the loop of [get_torch_obj_rule_map] *)

Section LoopFacts.

Variable E : Env.

Lemma key_eq_refl (a : ref) : key_eq E a a = true.
Proof. unfold key_eq. now rewrite Z.eqb_refl. Qed.

Lemma key_eq_sym (a b : ref) : key_eq E a b = key_eq E b a.
Proof.
  unfold key_eq. rewrite (Z.eqb_sym a b). f_equal.
  destruct (key_of E a), (key_of E b); try reflexivity.
  apply String.eqb_sym.
Qed.

Lemma key_eq_trans (a b c : ref) :
  key_eq E a b = true -> key_eq E b c = true -> key_eq E a c = true.
Proof.
  unfold key_eq. intros Hab Hbc.
  destruct (Z.eqb_spec a b) as [->|_]; [exact Hbc|].
  destruct (Z.eqb_spec b c) as [<-|_].
  - simpl in Hab. rewrite Hab. apply orb_true_r.
  - simpl in *.
    destruct (key_of E a), (key_of E b), (key_of E c); try discriminate.
    apply String.eqb_eq in Hab, Hbc. subst.
    rewrite String.eqb_refl. apply orb_true_r.
Qed.

Lemma key_eq_congr (a b c : ref) :
  key_eq E a b = true -> key_eq E a c = key_eq E b c.
Proof.
  intros Hab.
  destruct (key_eq E b c) eqn:Hbc.
  - now apply key_eq_trans with b.
  - destruct (key_eq E a c) eqn:Hac; [|reflexivity].
    rewrite key_eq_sym in Hab.
    now rewrite (key_eq_trans _ _ _ Hab Hac) in Hbc.
Qed.


Lemma assoc_get_set (d : ObjDict) (k k2 : ref) (v : Rule) :
  assoc_get E (assoc_set E d k v) k2
  = if key_eq E k k2 then Some v else assoc_get E d k2.
Proof.
  induction d as [|[k' v'] d IH]; simpl; [reflexivity|].
  destruct (key_eq E k' k) eqn:Hk; simpl.
  - rewrite (key_eq_congr _ _ k2 Hk).
    now destruct (key_eq E k k2).
  - rewrite IH. destruct (key_eq E k' k2) eqn:Hk2; [|reflexivity].
    destruct (key_eq E k k2) eqn:Hkk; [|reflexivity].
    rewrite (key_eq_sym k k2) in Hkk.
    now rewrite (key_eq_trans _ _ _ Hk2 Hkk) in Hk.
Qed.

Lemma rule_map_loop_app (l1 l2 : list (string * Rule)) (d : ObjDict) :
  rule_map_loop E (l1 ++ l2) d
  = (d' <- rule_map_loop E l1 d ;; rule_map_loop E l2 d').
Proof.
  revert d. induction l1 as [|kv l1 IH]; intros d; simpl; [reflexivity|].
  destruct (rule_map_step E d kv); simpl; [apply IH | reflexivity].
Qed.

(** An entry whose name does not load is passed over or aborts the loop,
    by the exception alone. *)
Lemma rule_map_step_load_err (d : ObjDict) (k : string) (v : Rule) (e : exn) :
  load_object E k = Err e ->
  rule_map_step E d (k, v) = if caught e then Ok d else Err e.
Proof. intros H. unfold rule_map_step. simpl. now rewrite H. Qed.

(** Whatever leaves the loop is an exception the handler does not list. *)
Lemma rule_map_step_uncaught (d : ObjDict) (kv : string * Rule) (e : exn) :
  rule_map_step E d kv = Err e -> caught e = false.
Proof.
  unfold rule_map_step.
  destruct (obj <- load_object E (fst kv);; dict_set E d obj (snd kv))
    as [d'|e']; [discriminate|].
  destruct (caught e') eqn:Hc; [discriminate|].
  now intros [= <-].
Qed.

Lemma rule_map_loop_uncaught (items : list (string * Rule)) (d : ObjDict)
  (e : exn) :
  rule_map_loop E items d = Err e -> caught e = false.
Proof.
  revert d. induction items as [|kv items IH]; intros d; simpl; [discriminate|].
  destruct (rule_map_step E d kv) as [d'|e'] eqn:Hs; simpl.
  - apply IH.
  - intros [= <-]. now apply rule_map_step_uncaught in Hs.
Qed.

(** An entry that raises past the handler aborts the whole construction. *)
Lemma rule_map_loop_aborts (items : list (string * Rule)) (d : ObjDict)
  (k : string) (v : Rule) (e : exn) :
  In (k, v) items -> load_object E k = Err e -> caught e = false ->
  exists e', rule_map_loop E items d = Err e'.
Proof.
  intros Hin Hload Hc. revert d.
  induction items as [|kv items IH]; intros d; [contradiction|].
  simpl. destruct Hin as [-> | Hin].
  - rewrite (rule_map_step_load_err d k v e Hload), Hc. simpl. now exists e.
  - destruct (rule_map_step E d kv) as [d'|e']; simpl.
    + now apply IH.
    + now exists e'.
Qed.

End LoopFacts.

(** ** The precedence chain of [lookup] *)

Lemma disallowed_iff (o : ref) (ids : list ref) :
  existsb (Z.eqb o) ids = true <-> In o ids.
Proof.
  rewrite existsb_exists. split.
  - intros [x [Hin Heq]]. apply Z.eqb_eq in Heq. now subst.
  - intros Hin. exists o. split; [assumption | apply Z.eqb_refl].
Qed.

Lemma not_disallowed (o : ref) (ids : list ref) :
  ~ In o ids -> existsb (Z.eqb o) ids = false.
Proof.
  intros H. destruct (existsb (Z.eqb o) ids) eqn:Hex; [|reflexivity].
  now apply disallowed_iff in Hex.
Qed.

Lemma lookup_unhashable (E : Env) (names : NameDict) (o : ref) :
  hashable E o = false -> lookup E names o = Ok None.
Proof. intros H. unfold lookup. now rewrite H. Qed.

(** Once past the first four tests, [lookup] is the unwrap guard followed
    by the table and the fallback. *)
Lemma lookup_past_overrides (E : Env) (names : NameDict) (o : ref) :
  hashable E o = true ->
  ~ In o (_disallowed_function_ids E) ->
  is_user_defined_allowed E o = false ->
  isinstance E o [KStr] = false ->
  lookup E names o = (o' <- unwrap_guard E o ;; rule_or_fallback E names o').
Proof.
  intros Hh Hd Ha Hs. unfold lookup.
  now rewrite Hh, (not_disallowed _ _ Hd), Ha, Hs.
Qed.

Lemma unwrap_guard_spec (E : Env) (o : ref) :
  unwrap_guard E o
  = match getattr E o "__wrapped__" with
    | Ok w => Ok (if has_reserved_qualname E o then o else w)
    | Err _ => Ok o
    end.
Proof.
  unfold unwrap_guard, hasattr, has_reserved_qualname, qualname_str.
  destruct (getattr E o "__wrapped__") as [w|e]; [|reflexivity].
  destruct (getattr E o "__qualname__") as [q|e]; simpl; [|reflexivity].
  now destruct (startswith (ob_str (heap E q)) "_VariableFunctionsClass").
Qed.

(** C1. An object whose identity is in the Disallow set gets no rule:
    [lookup] returns [None] for it whatever the Allow predicate, the rule
    names, the environment they resolve in and the fallback say (and
    whether or not the object is hashable). *)
Theorem C1_disallow_overrides (E : Env) (names : NameDict) (o : ref) :
  In o (_disallowed_function_ids E) -> lookup E names o = Ok None.
Proof.
  intros Hin. unfold lookup.
  destruct (hashable E o); simpl; [|reflexivity].
  apply disallowed_iff in Hin. now rewrite Hin.
Qed.

Lemma C1_disallow_overrides_witness :
  lookup (mkEnv World.heap World.import_module [30] (fun _ => true)
                (fun _ => true) 2)
         [("m.Ctx", TorchCtxManagerClassVariable)] 30 = Ok None.
Proof. apply C1_disallow_overrides. simpl. left. reflexivity. Defined.

(** C4 (amended). A hashable string that is not disallowed and that the
    Allow predicate does not accept is classified [ConstantVariable],
    whatever the rule table and the fallback say. *)
Theorem C4_string_constant (E : Env) (names : NameDict) (s : ref) :
  isinstance E s [KStr] = true ->
  hashable E s = true ->
  ~ In s (_disallowed_function_ids E) ->
  is_user_defined_allowed E s = false ->
  lookup E names s = Ok (Some ConstantVariable).
Proof.
  intros Hs Hh Hd Ha. unfold lookup.
  now rewrite Hh, (not_disallowed _ _ Hd), Ha, Hs.
Qed.

Lemma C4_string_constant_witness :
  lookup (World.with_disallowed [61]) Shipped.torch_name_rule_map 60
  = Ok (Some ConstantVariable).
Proof.
  apply C4_string_constant; try reflexivity.
  simpl. intros [H | []]. discriminate H.
Defined.

(** C4 as stated fails: a string that is not disallowed but that the Allow
    predicate accepts is a graph operation, because the Allow test comes
    before the string test. *)
Lemma C4_allowed_string_is_graph_op :
  isinstance (World.with_user_allowed [60]) 60 [KStr] = true
  /\ ~ In 60 (_disallowed_function_ids (World.with_user_allowed [60]))
  /\ lookup (World.with_user_allowed [60]) Shipped.torch_name_rule_map 60
     = Ok (Some TorchInGraphFunctionVariable)
  /\ lookup (World.with_user_allowed [60]) Shipped.torch_name_rule_map 60
     <> Ok (Some ConstantVariable).
Proof.
  repeat split; try reflexivity.
  - intros [].
  - discriminate.
Qed.

(** C5. An object with a [__wrapped__] attribute that reaches the unwrap
    guard: when its [__qualname__] starts with [_VariableFunctionsClass]
    the rule table and the fallback are consulted for the object itself,
    and otherwise for the object [__wrapped__] refers to. *)
Theorem C5_unwrap_guard (E : Env) (names : NameDict) (o w : ref) :
  hashable E o = true ->
  ~ In o (_disallowed_function_ids E) ->
  is_user_defined_allowed E o = false ->
  isinstance E o [KStr] = false ->
  getattr E o "__wrapped__" = Ok w ->
  (has_reserved_qualname E o = true ->
   lookup E names o = rule_or_fallback E names o)
  /\ (has_reserved_qualname E o = false ->
      lookup E names o = rule_or_fallback E names w).
Proof.
  intros Hh Hd Ha Hs Hw.
  rewrite (lookup_past_overrides E names o Hh Hd Ha Hs).
  rewrite unwrap_guard_spec, Hw.
  split; intros ->; reflexivity.
Qed.

Lemma C5_unwrap_guard_witness :
  (lookup World.env [("m.deco", TorchCtxManagerClassVariable)] 50
   = rule_or_fallback World.env [("m.deco", TorchCtxManagerClassVariable)] 50)
  /\ (lookup World.env [("m.deco", TorchCtxManagerClassVariable)] 40
      = rule_or_fallback World.env
          [("m.deco", TorchCtxManagerClassVariable)] 41).
Proof.
  split.
  - apply (C5_unwrap_guard World.env _ 50 51); try reflexivity.
    intros [].
  - apply (C5_unwrap_guard World.env _ 40 41); try reflexivity.
    intros [].
Defined.

Example unwrap_guard_runs :
  lookup World.env [("m.deco", TorchCtxManagerClassVariable)] 40
  = Ok (Some TorchCtxManagerClassVariable)
  /\ lookup World.env [("m.deco", TorchCtxManagerClassVariable)] 50 = Ok None
  /\ lookup (World.with_allowed [50])
            [("m.deco", TorchCtxManagerClassVariable)] 50
     = Ok (Some TorchInGraphFunctionVariable)
  /\ lookup (World.with_allowed [50])
            [("m.deco", TorchCtxManagerClassVariable)] 51
     = Ok None.
Proof. repeat split; reflexivity. Qed.

(** C2. A hashable object that is not disallowed, not user-allowed and not
    a string, and for which the table has no rule once the unwrap guard
    has chosen the object [o'] to look up: [lookup] answers
    [TorchInGraphFunctionVariable] exactly when [o'] is in the set of
    native tensor methods, or is an operator overload or overload packet,
    or is a function, bound method, builtin, method descriptor or wrapper
    descriptor that [is_allowed] accepts; in every other case it answers
    [None]. *)
Theorem C2_generic_fallback (E : Env) (names : NameDict) (o o' : ref)
  (table : ObjDict) (s : list ref) :
  hashable E o = true ->
  ~ In o (_disallowed_function_ids E) ->
  is_user_defined_allowed E o = false ->
  isinstance E o [KStr] = false ->
  unwrap_guard E o = Ok o' ->
  get_torch_obj_rule_map E names = Ok table ->
  dict_get E table o' = Ok None ->
  get_tensor_method E = Ok s ->
  lookup E names o
  = Ok (if native_tensor_method E s o'
           || is_op_overload E o'
           || (is_function_like E o' && is_allowed E o')
        then Some TorchInGraphFunctionVariable
        else None).
Proof.
  intros Hh Hd Ha Hs Hu Ht Hg Hm.
  assert (Hh' : hashable E o' = true).
  { unfold dict_get in Hg. now destruct (hashable E o'). }
  rewrite (lookup_past_overrides E names o Hh Hd Ha Hs), Hu. cbn [bind].
  unfold rule_or_fallback. rewrite Ht. cbn [bind]. rewrite Hg. cbn [bind].
  unfold is_in_graph_function. rewrite Hm. cbn [bind].
  unfold set_contains. rewrite Hh'. cbn [bind].
  fold (native_tensor_method E s o'). fold (is_op_overload E o').
  fold (is_function_like E o').
  destruct (native_tensor_method E s o'), (is_op_overload E o');
    cbn [orb bind]; try reflexivity.
  destruct (is_function_like E o'); cbn [andb bind]; [|reflexivity].
  now destruct (is_allowed E o').
Qed.

Lemma C2_generic_fallback_witness :
  lookup (World.with_allowed [51])
         [("m.Ctx", TorchCtxManagerClassVariable)] 40
  = Ok None
  /\ lookup (World.with_allowed [41])
            [("m.Ctx", TorchCtxManagerClassVariable)] 40
     = Ok (Some TorchInGraphFunctionVariable).
Proof.
  split.
  - apply (C2_generic_fallback (World.with_allowed [51]) _ 40 41
             [(30, TorchCtxManagerClassVariable)] [80; 82]);
      try reflexivity.
    intros [].
  - apply (C2_generic_fallback (World.with_allowed [41]) _ 40 41
             [(30, TorchCtxManagerClassVariable)] [80; 82]);
      try reflexivity.
    intros [].
Defined.

Example fallback_shapes :
  lookup World.env [] 80 = Ok (Some TorchInGraphFunctionVariable)
  /\ lookup World.env [] 90 = Ok (Some TorchInGraphFunctionVariable)
  /\ lookup (World.with_allowed [10]) [] 10
     = Ok (Some TorchInGraphFunctionVariable)
  /\ lookup World.env [] 10 = Ok None
  /\ lookup (World.with_allowed [30]) [] 30 = Ok None.
Proof. repeat split; reflexivity. Qed.

(** ** Rule names that do not load *)

(** More than one ['#']: the assertion of [load_object] fails before
    anything is imported. *)
Lemma load_object_malformed (E : Env) (name : string) :
  (2 <= count_char "#" name)%nat ->
  load_object E name = Err (AssertionError ("Invalid obj name " ++ name)).
Proof.
  intros H. unfold load_object.
  rewrite split_length.
  destruct (count_char "#" name) as [|[|n]]; [lia | lia | reflexivity].
Qed.

(** No ['.'] before the ['#']: unpacking the result of [rsplit] fails. *)
Lemma _load_obj_from_str_no_dot (E : Env) (path : string) :
  count_char "." path = 0%nat -> _load_obj_from_str E path = Err ValueError.
Proof.
  intros H. unfold _load_obj_from_str. now rewrite (rsplit1_no_sep _ _ H).
Qed.

Lemma load_object_no_dot (E : Env) (name : string) :
  (count_char "#" name <= 1)%nat ->
  count_char "." (path_part name) = 0%nat ->
  load_object E name = Err ValueError.
Proof.
  intros Hs Hd. unfold load_object. fold (path_part name).
  rewrite split_length, (_load_obj_from_str_no_dot E _ Hd).
  destruct (count_char "#" name) as [|[|n]]; [reflexivity | reflexivity | lia].
Qed.

(** A module that is not there, or an attribute that is not there. *)
Lemma load_object_missing_module (E : Env) (name module attr : string) :
  count_char "#" name = 0%nat ->
  rsplit1 "." name = [module; attr] ->
  import_module E module = Err ModuleNotFoundError ->
  load_object E name = Err ModuleNotFoundError.
Proof.
  intros Hs Hr Hi. unfold load_object.
  rewrite split_length, Hs. cbn [Nat.eqb].
  assert (Hx : nth 0 (split "#" name) "" = name).
  { clear Hr. induction name as [|c n IH]; [reflexivity|].
    simpl in *. destruct (Ascii.eqb c "#"); [discriminate|].
    specialize (IH Hs).
    destruct (split "#" n) as [|w ws] eqn:Hsp; simpl in *; now subst. }
  rewrite Hx. unfold _load_obj_from_str. rewrite Hr, Hi. reflexivity.
Qed.

(** C6. A rule name with two or more ['#'] makes [load_object] fail its
    assertion, with the message [Invalid obj name <name>], in every
    environment; the handler of [get_torch_obj_rule_map] does not list
    that exception; so a rule map that declares such a name never yields
    a table: construction ends in an exception the handler does not
    catch, and when the entries before it are processed without one it is
    that very assertion failure. *)
Theorem C6_malformed_name_aborts (E : Env) (name : string) (v : Rule) :
  (2 <= count_char "#" name)%nat ->
  load_object E name = Err (AssertionError ("Invalid obj name " ++ name))
  /\ caught (AssertionError ("Invalid obj name " ++ name)) = false
  /\ (forall items, In (name, v) items ->
        exists e, get_torch_obj_rule_map E items = Err e /\ caught e = false)
  /\ (forall before after d,
        rule_map_loop E before [] = Ok d ->
        get_torch_obj_rule_map E (before ++ (name, v) :: after)%list
        = Err (AssertionError ("Invalid obj name " ++ name))).
Proof.
  intros H. pose proof (load_object_malformed E name H) as Hl.
  repeat split.
  - exact Hl.
  - intros items Hin.
    destruct (rule_map_loop_aborts E items [] name v _ Hin Hl eq_refl)
      as [e He].
    exists e. split; [exact He|].
    now apply rule_map_loop_uncaught in He.
  - intros before after d Hb. unfold get_torch_obj_rule_map.
    rewrite rule_map_loop_app, Hb. cbn [bind rule_map_loop].
    now rewrite (rule_map_step_load_err E d name v _ Hl).
Qed.

Lemma C6_malformed_name_aborts_witness :
  get_torch_obj_rule_map World.env
    [("m.Ctx", TorchCtxManagerClassVariable);
     ("m.gen#get_state#x", TorchInGraphFunctionVariable);
     ("m.f", TorchInGraphFunctionVariable)]
  = Err (AssertionError "Invalid obj name m.gen#get_state#x").
Proof.
  apply (proj2 (proj2 (proj2
           (C6_malformed_name_aborts World.env "m.gen#get_state#x"
              TorchInGraphFunctionVariable ltac:(simpl; lia))))
           [("m.Ctx", TorchCtxManagerClassVariable)]
           [("m.f", TorchInGraphFunctionVariable)]
           [(30, TorchCtxManagerClassVariable)]).
  reflexivity.
Defined.

(** C7. A rule entry whose name does not resolve, because the module or
    an attribute is missing, is passed over: construction gives exactly
    what it gives for the rule map without that entry, so the entry adds
    no key, changes no other entry's resolution, and raises nothing of
    its own; in particular construction succeeds whenever it succeeds
    without the entry. *)
Theorem C7_unresolved_entry_dropped (E : Env) (k : string) (v : Rule)
  (before after : list (string * Rule)) :
  load_object E k = Err AttributeError
  \/ load_object E k = Err ModuleNotFoundError ->
  get_torch_obj_rule_map E (before ++ (k, v) :: after)%list
  = get_torch_obj_rule_map E (before ++ after)%list
  /\ (forall table, get_torch_obj_rule_map E (before ++ after)%list = Ok table ->
        get_torch_obj_rule_map E (before ++ (k, v) :: after)%list = Ok table)
  /\ (forall d, rule_map_step E d (k, v) = Ok d).
Proof.
  intros H.
  assert (Hstep : forall d, rule_map_step E d (k, v) = Ok d).
  { intros d. destruct H as [H | H];
      now rewrite (rule_map_step_load_err E d k v _ H). }
  assert (Heq : get_torch_obj_rule_map E (before ++ (k, v) :: after)%list
                = get_torch_obj_rule_map E (before ++ after)%list).
  { unfold get_torch_obj_rule_map. rewrite !rule_map_loop_app.
    destruct (rule_map_loop E before []) as [d|e]; [|reflexivity].
    cbn [bind rule_map_loop]. now rewrite Hstep. }
  repeat split.
  - exact Heq.
  - intros table Ht. now rewrite Heq.
  - exact Hstep.
Qed.

Lemma C7_unresolved_entry_dropped_witness :
  get_torch_obj_rule_map World.env
    [("m.Ctx", TorchCtxManagerClassVariable);
     ("torch.removed.api", TorchInGraphFunctionVariable);
     ("m.f", TorchInGraphFunctionVariable)]
  = get_torch_obj_rule_map World.env
      [("m.Ctx", TorchCtxManagerClassVariable);
       ("m.f", TorchInGraphFunctionVariable)].
Proof.
  apply (C7_unresolved_entry_dropped World.env "torch.removed.api"
           TorchInGraphFunctionVariable
           [("m.Ctx", TorchCtxManagerClassVariable)]
           [("m.f", TorchInGraphFunctionVariable)]).
  right. reflexivity.
Defined.

Example unresolved_entries_run :
  get_torch_obj_rule_map World.env
    [("m.Ctx", TorchCtxManagerClassVariable);
     ("torch.removed.api", TorchInGraphFunctionVariable);
     ("m.missing", ConstantVariable);
     ("m.gen#missing", ConstantVariable);
     ("m.f", TorchInGraphFunctionVariable)]
  = Ok [(30, TorchCtxManagerClassVariable);
        (10, TorchInGraphFunctionVariable)].
Proof. reflexivity. Qed.

(** C10 (amended). A rule name with at most one ['#'] whose part before
    the ['#'] has no ['.'] makes [load_object] raise [ValueError] in every
    environment; the handler does not list it; so a rule map that
    declares such a name never yields a table, and when the entries
    before it are processed without an exception construction ends in
    that [ValueError]. *)
Theorem C10_no_dot_raises_value_error (E : Env) (name : string) (v : Rule) :
  (count_char "#" name <= 1)%nat ->
  count_char "." (path_part name) = 0%nat ->
  load_object E name = Err ValueError
  /\ caught ValueError = false
  /\ (forall items, In (name, v) items ->
        exists e, get_torch_obj_rule_map E items = Err e /\ caught e = false)
  /\ (forall before after d,
        rule_map_loop E before [] = Ok d ->
        get_torch_obj_rule_map E (before ++ (name, v) :: after)%list
        = Err ValueError).
Proof.
  intros Hs Hd. pose proof (load_object_no_dot E name Hs Hd) as Hl.
  repeat split.
  - exact Hl.
  - intros items Hin.
    destruct (rule_map_loop_aborts E items [] name v _ Hin Hl eq_refl)
      as [e He].
    exists e. split; [exact He|].
    now apply rule_map_loop_uncaught in He.
  - intros before after d Hb. unfold get_torch_obj_rule_map.
    rewrite rule_map_loop_app, Hb. cbn [bind rule_map_loop].
    now rewrite (rule_map_step_load_err E d name v _ Hl).
Qed.

Lemma C10_no_dot_raises_value_error_witness :
  get_torch_obj_rule_map World.env
    [("m.Ctx", TorchCtxManagerClassVariable);
     ("torch#get_state", TorchInGraphFunctionVariable)]
  = Err ValueError.
Proof.
  apply (proj2 (proj2 (proj2
           (C10_no_dot_raises_value_error World.env "torch#get_state"
              TorchInGraphFunctionVariable
              ltac:(simpl; lia) ltac:(reflexivity))))
           [("m.Ctx", TorchCtxManagerClassVariable)] []
           [(30, TorchCtxManagerClassVariable)]).
  reflexivity.
Defined.

(** C10 as stated fails: with two ['#'] the part before the first has no
    ['.'] either, and construction ends in the assertion failure for a
    malformed name, not in a [ValueError]. *)
Lemma C10_two_hashes_assertion_not_value_error :
  count_char "." (path_part "torch#a#b") = 0%nat
  /\ get_torch_obj_rule_map World.env
       [("torch#a#b", TorchInGraphFunctionVariable)]
     = Err (AssertionError "Invalid obj name torch#a#b")
  /\ get_torch_obj_rule_map World.env
       [("torch#a#b", TorchInGraphFunctionVariable)]
     <> Err ValueError.
Proof. split; [reflexivity | split; [reflexivity | discriminate]]. Qed.

(** ** Merging the manual and the automatic rule names *)

Lemma name_get_set (d : NameDict) (k k' : string) (v : Rule) :
  name_get (name_set d k v) k'
  = if String.eqb k k' then Some v else name_get d k'.
Proof.
  induction d as [|[k0 v0] d IH]; simpl; [reflexivity|].
  destruct (String.eqb_spec k0 k) as [->|Hne]; simpl.
  - now destruct (String.eqb k k').
  - rewrite IH. destruct (String.eqb_spec k0 k') as [->|Hne']; [|reflexivity].
    destruct (String.eqb_spec k k') as [->|_]; [contradiction | reflexivity].
Qed.

Lemma name_get_update_other (items : list (string * Rule)) (d : NameDict)
  (n : string) :
  ~ In n (map fst items) -> name_get (name_update d items) n = name_get d n.
Proof.
  revert d. induction items as [|[k v] items IH]; intros d Hn; [reflexivity|].
  unfold name_update in *. simpl in *.
  rewrite IH by tauto. rewrite name_get_set.
  destruct (String.eqb_spec k n) as [->|_]; [tauto | reflexivity].
Qed.

Lemma name_get_update_last (items : list (string * Rule)) (d : NameDict)
  (n : string) (b : Rule) :
  NoDup (map fst items) -> name_get items n = Some b ->
  name_get (name_update d items) n = Some b.
Proof.
  revert d. induction items as [|[k v] items IH]; intros d Hnd Hg;
    [discriminate|].
  simpl in Hnd, Hg. inversion Hnd as [|x l Hnotin Hnd']; subst.
  change (name_update d ((k, v) :: items))
    with (name_update (name_set d k v) items).
  destruct (String.eqb_spec k n) as [->|Hne].
  - injection Hg as ->.
    rewrite (name_get_update_other items _ n Hnotin), name_get_set.
    now rewrite String.eqb_refl.
  - now apply IH.
Qed.

Lemma name_get_In (d : NameDict) (n : string) (b : Rule) :
  name_get d n = Some b -> In (n, b) d.
Proof.
  induction d as [|[k v] d IH]; simpl; [discriminate|].
  destruct (String.eqb_spec k n) as [->|_].
  - intros [= ->]. now left.
  - intros H. right. now apply IH.
Qed.

Section TableFacts.

Variable E : Env.

Lemma rule_map_step_inv (d d1 : ObjDict) (m : string) (v : Rule) :
  rule_map_step E d (m, v) = Ok d1 ->
  (exists o, load_object E m = Ok o /\ hashable E o = true
             /\ d1 = assoc_set E d o v)
  \/ (exists e, load_object E m = Err e /\ d1 = d).
Proof.
  unfold rule_map_step. simpl.
  destruct (load_object E m) as [o|e]; simpl.
  - unfold dict_set. destruct (hashable E o) eqn:Hh; simpl.
    + intros [= <-]. left. now exists o.
    + discriminate.
  - destruct (caught e); [|discriminate].
    intros [= <-]. right. now exists e.
Qed.

(** Every key of the finished table is hashable. *)
Lemma rule_map_loop_hashable (items : list (string * Rule)) (d table : ObjDict)
  (m : string) (v : Rule) (o : ref) :
  rule_map_loop E items d = Ok table ->
  In (m, v) items -> load_object E m = Ok o -> hashable E o = true.
Proof.
  revert d. induction items as [|[m0 v0] items IH]; intros d Hl Hin Hload;
    [contradiction|].
  simpl in Hl.
  destruct (rule_map_step E d (m0, v0)) as [d1|e] eqn:Hs; [|discriminate].
  simpl in Hl. destruct Hin as [[= -> ->] | Hin].
  - apply rule_map_step_inv in Hs.
    destruct Hs as [[o' [Ho' [Hh _]]] | [e [He _]]]; congruence.
  - now apply (IH d1).
Qed.

(** The last writer wins: when every entry that resolves to the slot of
    [o] carries the rule [b], and one does or the slot starts with [b],
    the slot ends with [b]. *)
Lemma rule_map_loop_assigns (o : ref) (b : Rule)
  (items : list (string * Rule)) (d table : ObjDict) :
  rule_map_loop E items d = Ok table ->
  (forall m v o', In (m, v) items -> load_object E m = Ok o' ->
                  key_eq E o' o = true -> v = b) ->
  (exists m o', In (m, b) items /\ load_object E m = Ok o'
                /\ key_eq E o' o = true)
  \/ assoc_get E d o = Some b ->
  assoc_get E table o = Some b.
Proof.
  revert d. induction items as [|[m0 v0] items IH]; intros d Hl Hall Hsrc.
  - simpl in Hl. injection Hl as <-.
    destruct Hsrc as [[m [o' [[] _]]] | H]. exact H.
  - simpl in Hl.
    destruct (rule_map_step E d (m0, v0)) as [d1|e] eqn:Hs; [|discriminate].
    simpl in Hl. apply (IH d1 Hl).
    + intros m v o' Hin. apply Hall. now right.
    + apply rule_map_step_inv in Hs.
      destruct Hs as [[o0 [Ho0 [_ ->]]] | [e [He ->]]].
      * rewrite assoc_get_set.
        destruct (key_eq E o0 o) eqn:Hk.
        -- right. f_equal. apply (Hall m0 v0 o0); [now left | exact Ho0 | exact Hk].
        -- destruct Hsrc as [[m [o' [[Heq | Hin] [Hm Hk']]]] | H].
           ++ injection Heq as -> ->. congruence.
           ++ left. now exists m, o'.
           ++ now right.
      * destruct Hsrc as [[m [o' [[Heq | Hin] [Hm Hk']]]] | H].
        -- injection Heq as -> ->. congruence.
        -- left. now exists m, o'.
        -- now right.
Qed.

End TableFacts.

(** The write that decides a slot is the last one: an entry that resolves
    to a key equal to [o] gives [o] its rule when every later entry that
    resolves to an equal key carries the same rule; what the entries
    before it wrote does not matter. *)
Lemma rule_map_loop_last_writer (E : Env) (before after : list (string * Rule))
  (n : string) (r : Rule) (table : ObjDict) (a o : ref) :
  rule_map_loop E (before ++ (n, r) :: after) [] = Ok table ->
  load_object E n = Ok a ->
  key_eq E a o = true ->
  (forall m v o', In (m, v) after -> load_object E m = Ok o' ->
                  key_eq E o' o = true -> v = r) ->
  dict_get E table o = Ok (Some r).
Proof.
  intros Hl Hload Hk Hafter.
  rewrite rule_map_loop_app in Hl.
  destruct (rule_map_loop E before []) as [d1|e]; [|discriminate].
  cbn [bind rule_map_loop] in Hl.
  destruct (rule_map_step E d1 (n, r)) as [d2|e] eqn:Hs; [|discriminate].
  cbn [bind] in Hl.
  apply rule_map_step_inv in Hs.
  destruct Hs as [[a' [Ha' [Hh ->]]] | [e [He _]]]; [|congruence].
  assert (a' = a) as -> by congruence.
  assert (Ho : hashable E o = true).
  { revert Hk Hh. unfold key_eq, hashable.
    destruct (Z.eqb_spec a o) as [->|_]; [trivial|]. simpl.
    destruct (key_of E a), (key_of E o); try discriminate. trivial. }
  unfold dict_get. rewrite Ho. f_equal.
  apply (rule_map_loop_assigns E o r after _ table Hl Hafter).
  right. now rewrite assoc_get_set, Hk.
Qed.

(** C3 (amended). For a name [n] that the manual and the automatic rule
    map both declare, with different rules, the merged name map gives [n]
    the automatic rule, at one place.  When the table is built and [n]
    resolves to an object, the table gives that object the rule of the
    last entry of the merged map that resolves to an equal key: so it
    gives it the automatic rule of [n] when every entry that comes after
    [n] and resolves to an equal key carries that rule, in particular
    when there is none, whatever the entries before [n] resolve to; and
    it gives it another rule when the last such entry carries another. *)
Theorem C3_auto_rule_wins (E : Env) (manual auto : NameDict) (n : string)
  (a b : Rule) :
  NoDup (map fst auto) ->
  name_get manual n = Some a ->
  name_get auto n = Some b ->
  a <> b ->
  name_get (dict_unpack2 manual auto) n = Some b
  /\ (exists before after,
        dict_unpack2 manual auto = (before ++ (n, b) :: after)%list)
  /\ (forall before after table o,
        dict_unpack2 manual auto = (before ++ (n, b) :: after)%list ->
        get_torch_obj_rule_map E (dict_unpack2 manual auto) = Ok table ->
        load_object E n = Ok o ->
        (forall m v o', In (m, v) after ->
                        load_object E m = Ok o' ->
                        key_eq E o' o = true -> v = b) ->
        dict_get E table o = Ok (Some b))
  /\ (forall before after m v table o o',
        dict_unpack2 manual auto = (before ++ (m, v) :: after)%list ->
        get_torch_obj_rule_map E (dict_unpack2 manual auto) = Ok table ->
        load_object E n = Ok o ->
        load_object E m = Ok o' ->
        key_eq E o' o = true ->
        (forall m2 v2 o2, In (m2, v2) after ->
                          load_object E m2 = Ok o2 ->
                          key_eq E o2 o = false) ->
        dict_get E table o = Ok (Some v)
        /\ (v <> b -> dict_get E table o <> Ok (Some b))).
Proof.
  intros Hnd _ Hb _.
  assert (Hn : name_get (dict_unpack2 manual auto) n = Some b).
  { unfold dict_unpack2. now apply name_get_update_last. }
  split; [exact Hn|]. split; [|split].
  - apply in_split. now apply name_get_In.
  - intros before after table o Heq Ht Hload Hafter.
    unfold get_torch_obj_rule_map in Ht. rewrite Heq in Ht.
    apply (rule_map_loop_last_writer E before after n b table o o Ht Hload);
      [apply key_eq_refl | exact Hafter].
  - intros before after m v table o o' Heq Ht _ Hload Hk Hafter.
    unfold get_torch_obj_rule_map in Ht. rewrite Heq in Ht.
    assert (Hg : dict_get E table o = Ok (Some v)).
    { apply (rule_map_loop_last_writer E before after m v table o' o Ht
               Hload Hk).
      intros m2 v2 o2 Hin H2 Hk2.
      rewrite (Hafter m2 v2 o2 Hin H2) in Hk2. discriminate. }
    split; [exact Hg|]. rewrite Hg. intros Hne [= Hv]. now apply Hne.
Qed.

Lemma C3_auto_rule_wins_witness :
  name_get (dict_unpack2
              [("m.g", TorchInGraphFunctionVariable);
               ("m.f", TorchInGraphFunctionVariable);
               ("m.Ctx", ConstantVariable)]
              [("m.f", TorchCtxManagerClassVariable)]) "m.f"
  = Some TorchCtxManagerClassVariable
  /\ dict_get World.env
       [(10, TorchCtxManagerClassVariable); (30, ConstantVariable)] 10
     = Ok (Some TorchCtxManagerClassVariable).
Proof.
  assert (Hnd : NoDup (map fst [("m.f", TorchCtxManagerClassVariable)])).
  { simpl. constructor; [intros [] | constructor]. }
  destruct (C3_auto_rule_wins World.env
              [("m.g", TorchInGraphFunctionVariable);
               ("m.f", TorchInGraphFunctionVariable);
               ("m.Ctx", ConstantVariable)]
              [("m.f", TorchCtxManagerClassVariable)] "m.f"
              TorchInGraphFunctionVariable TorchCtxManagerClassVariable
              Hnd eq_refl eq_refl ltac:(discriminate)) as [H1 [_ [H2 _]]].
  split; [exact H1|].
  apply (H2 [("m.g", TorchInGraphFunctionVariable)]
            [("m.Ctx", ConstantVariable)]);
    [reflexivity | reflexivity | reflexivity |].
  intros m v o' [[= <- <-] | []].
  intros [= <-]. discriminate.
Defined.

Example alias_before_does_not_overwrite :
  get_torch_obj_rule_map World.env
    (dict_unpack2 [("m.g", TorchInGraphFunctionVariable);
                   ("m.f", TorchInGraphFunctionVariable)]
                  [("m.f", TorchCtxManagerClassVariable)])
  = Ok [(10, TorchCtxManagerClassVariable)].
Proof. reflexivity. Qed.

(** C3 as stated fails: [m.f] is in both maps, manual
    [TorchInGraphFunctionVariable] and automatic
    [TorchCtxManagerClassVariable]; [m.g] names the same object and comes
    later in the merged map, so the table gives the object resolved from
    [m.f] the manual rule. *)
Lemma C3_later_alias_overwrites :
  name_get [("m.f", TorchInGraphFunctionVariable);
            ("m.g", TorchInGraphFunctionVariable)] "m.f"
  = Some TorchInGraphFunctionVariable
  /\ name_get [("m.f", TorchCtxManagerClassVariable)] "m.f"
     = Some TorchCtxManagerClassVariable
  /\ load_object World.env "m.f" = Ok 10
  /\ get_torch_obj_rule_map World.env
       (dict_unpack2 [("m.f", TorchInGraphFunctionVariable);
                      ("m.g", TorchInGraphFunctionVariable)]
                     [("m.f", TorchCtxManagerClassVariable)])
     = Ok [(10, TorchInGraphFunctionVariable)]
  /\ dict_get World.env [(10, TorchInGraphFunctionVariable)] 10
     <> Ok (Some TorchCtxManagerClassVariable).
Proof.
  split; [reflexivity|]. split; [reflexivity|]. split; [reflexivity|].
  split; [reflexivity | discriminate].
Qed.

(** ** Identity and equality of keys *)

Section KeyFacts.

Variable E : Env.

Lemma set_add_contains (s s' : list ref) (a b : ref) :
  set_add E s a = Ok s' ->
  existsb (fun k' => key_eq E k' b) s'
  = existsb (fun k' => key_eq E k' b) s || key_eq E a b.
Proof.
  unfold set_add. destruct (hashable E a); [|discriminate].
  destruct (existsb (fun k' => key_eq E k' a) s) eqn:Hex; intros [= <-].
  - destruct (key_eq E a b) eqn:Hab; [|now rewrite orb_false_r].
    rewrite orb_true_r. apply existsb_exists in Hex.
    destruct Hex as [k [Hin Hk]]. apply existsb_exists. exists k.
    split; [exact Hin | now apply key_eq_trans with a].
  - rewrite existsb_app. simpl. now rewrite orb_false_r.
Qed.

End KeyFacts.


Example disallow_is_by_identity :
  key_eq World.env 60 61 = true
  /\ lookup (World.with_disallowed [61]) Shipped.torch_name_rule_map 61
     = Ok None
  /\ lookup (World.with_disallowed [61]) Shipped.torch_name_rule_map 60
     = Ok (Some ConstantVariable).
Proof. repeat split; reflexivity. Qed.


(** ** When [lookup] returns *)


(** [lookup] returns whenever the table and the tensor methods can be
    built and the object left by the unwrap guard is hashable. *)
Lemma lookup_returns (E : Env) (names : NameDict) (o o' : ref)
  (table : ObjDict) (s : list ref) :
  get_torch_obj_rule_map E names = Ok table ->
  get_tensor_method E = Ok s ->
  unwrap_guard E o = Ok o' ->
  hashable E o' = true ->
  exists r, lookup E names o = Ok r.
Proof.
  intros Ht Hm Hu Hh. unfold lookup.
  destruct (negb (hashable E o)); [eauto|].
  destruct (existsb (Z.eqb o) (_disallowed_function_ids E)); [eauto|].
  destruct (is_user_defined_allowed E o); [eauto|].
  destruct (isinstance E o [KStr]); [eauto|].
  rewrite Hu. cbn [bind]. unfold rule_or_fallback. rewrite Ht. cbn [bind].
  unfold dict_get. rewrite Hh. cbn [bind].
  destruct (assoc_get E table o') as [r|]; [eauto|].
  unfold is_in_graph_function, set_contains. rewrite Hm, Hh. cbn [bind].
  destruct (_ || _); cbn [bind]; [eauto|].
  destruct (isinstance E o' _); cbn [bind]; [|eauto].
  destruct (is_allowed E o'); eauto.
Qed.

(** The guard on line 180 covers the argument, not the object the unwrap
    guard puts in its place: when that object is unhashable the table
    lookup raises. *)
Lemma lookup_raises_after_unwrap (E : Env) (names : NameDict) (o w : ref)
  (table : ObjDict) :
  hashable E o = true ->
  ~ In o (_disallowed_function_ids E) ->
  is_user_defined_allowed E o = false ->
  isinstance E o [KStr] = false ->
  getattr E o "__wrapped__" = Ok w ->
  has_reserved_qualname E o = false ->
  hashable E w = false ->
  get_torch_obj_rule_map E names = Ok table ->
  lookup E names o = Err TypeError.
Proof.
  intros Hh Hd Ha Hs Hw Hq Hu Ht.
  rewrite (lookup_past_overrides E names o Hh Hd Ha Hs).
  rewrite unwrap_guard_spec, Hw, Hq. cbn [bind].
  unfold rule_or_fallback. rewrite Ht. cbn [bind].
  unfold dict_get. now rewrite Hu.
Qed.

(** C9. [lookup] does not always return for a hashable object: 70 is a
    hashable function whose [__wrapped__] is the unhashable object 71.
    With the shipped rule names, all well formed, and a table that builds
    without an exception, the unwrap guard hands 71 to the table lookup,
    which raises [TypeError].  An unhashable argument does get [None]. *)
Theorem C9_lookup_raises_after_unwrap :
  forallb (fun kv => well_formed_name (fst kv)) Shipped.torch_name_rule_map
  = true
  /\ get_torch_obj_rule_map World.env Shipped.torch_name_rule_map = Ok []
  /\ hashable World.env 70 = true
  /\ unwrap_guard World.env 70 = Ok 71
  /\ hashable World.env 71 = false
  /\ lookup World.env Shipped.torch_name_rule_map 70 = Err TypeError
  /\ lookup World.env Shipped.torch_name_rule_map 71 = Ok None.
Proof. vm_compute. repeat split; reflexivity. Qed.

Example table_build_raises_on_unhashable :
  well_formed_name "m.table" = true
  /\ get_torch_obj_rule_map World.env [("m.table", ConstantVariable)]
     = Err TypeError.
Proof. split; reflexivity. Qed.

(** * Further properties of the module *)

(** ** The resolver: where a name is cut *)

Lemma split_no_sep (sep : ascii) (s : string) :
  count_char sep s = 0%nat -> split sep s = [s].
Proof.
  induction s as [|c s IH]; simpl; [reflexivity|].
  destruct (Ascii.eqb c sep); simpl; [discriminate|].
  intros H. now rewrite (IH H).
Qed.

Lemma split_first_sep (sep : ascii) (p rest : string) :
  count_char sep p = 0%nat ->
  split sep (p ++ String sep rest) = p :: split sep rest.
Proof.
  induction p as [|c p IH]; simpl.
  - now rewrite Ascii.eqb_refl.
  - destruct (Ascii.eqb c sep); simpl; [discriminate|].
    intros H. now rewrite (IH H).
Qed.

Lemma rsplit1_last_sep (sep : ascii) (m a : string) :
  count_char sep a = 0%nat ->
  rsplit1 sep (m ++ String sep a) = [m; a].
Proof.
  intros Ha. induction m as [|c m IH]; simpl.
  - now rewrite (rsplit1_no_sep _ _ Ha), Ascii.eqb_refl.
  - now rewrite IH.
Qed.

Lemma load_object_unwrap (E : Env) (val : ref) :
  (if hasattr E val "__wrapped__" then getattr E val "__wrapped__"
   else Ok val) = Ok (unwrap_once E val).
Proof.
  unfold hasattr, unwrap_once.
  now destruct (getattr E val "__wrapped__").
Qed.

(** X1. [_load_obj_from_str] cuts its argument at the last ['.']: the
    text before it, dots included, is the module that is imported, and
    the text after it is the attribute fetched from that module. *)
Theorem load_obj_from_str_last_dot (E : Env) (module attr : string) :
  count_char "." attr = 0%nat ->
  _load_obj_from_str E (module ++ "." ++ attr)
  = (m <- import_module E module ;; getattr E m attr).
Proof.
  intros H. unfold _load_obj_from_str.
  change ("." ++ attr) with (String "." attr).
  now rewrite (rsplit1_last_sep "." module attr H).
Qed.

Lemma load_obj_from_str_last_dot_witness :
  _load_obj_from_str World.env ("pkg.sub.m" ++ "." ++ "f")
  = (m <- import_module World.env "pkg.sub.m" ;; getattr World.env m "f").
Proof. apply load_obj_from_str_last_dot. reflexivity. Defined.

(** X2. A name without ['#'] is loaded as a dotted path, and the result
    is unwrapped once: [load_object] fails exactly as the path does, and
    never because of the unwrapping. *)
Theorem load_object_plain (E : Env) (name : string) :
  count_char "#" name = 0%nat ->
  load_object E name
  = (val <- _load_obj_from_str E name ;; Ok (unwrap_once E val)).
Proof.
  intros H. unfold load_object.
  rewrite (split_no_sep _ _ H). cbn [List.length Nat.eqb nth].
  destruct (_load_obj_from_str E name) as [val|e]; cbn [bind];
    [apply load_object_unwrap | reflexivity].
Qed.

Lemma load_object_plain_witness :
  load_object World.env "m.deco"
  = (val <- _load_obj_from_str World.env "m.deco" ;;
     Ok (unwrap_once World.env val)).
Proof. apply load_object_plain. reflexivity. Defined.

(** X3. A name [path#member] is loaded by resolving [path] as a dotted
    path (without unwrapping it), fetching [member] from that object, and
    unwrapping the member once. *)
Theorem load_object_member (E : Env) (path member : string) :
  count_char "#" path = 0%nat ->
  count_char "#" member = 0%nat ->
  load_object E (path ++ "#" ++ member)
  = (obj <- _load_obj_from_str E path ;;
     val <- getattr E obj member ;;
     Ok (unwrap_once E val)).
Proof.
  intros Hp Hm. unfold load_object.
  change ("#" ++ member) with (String "#" member).
  rewrite (split_first_sep "#" path member Hp), (split_no_sep _ _ Hm).
  cbn [List.length Nat.eqb nth].
  destruct (_load_obj_from_str E path) as [obj|e]; cbn [bind];
    [|reflexivity].
  destruct (getattr E obj member) as [val|e]; cbn [bind];
    [apply load_object_unwrap | reflexivity].
Qed.

Lemma load_object_member_witness :
  load_object World.env ("m.gen" ++ "#" ++ "get_state")
  = (obj <- _load_obj_from_str World.env "m.gen" ;;
     val <- getattr World.env obj "get_state" ;;
     Ok (unwrap_once World.env val)).
Proof. apply load_object_member; reflexivity. Defined.

Example load_object_unwraps_once_not_the_base :
  load_object World.env "m.deco" = Ok 41
  /\ load_object World.env "m.deco#__qualname__" = Ok 101
  /\ load_object World.env "m.deco#__wrapped__" = Ok 41.
Proof. repeat split; reflexivity. Qed.

(** ** The merged name map (line 87) *)

Lemma name_get_none (d : NameDict) (n : string) :
  name_get d n = None -> ~ In n (map fst d).
Proof.
  induction d as [|[k v] d IH]; simpl; [tauto|].
  destruct (String.eqb_spec k n) as [->|Hne]; [discriminate|].
  intros H [Heq | Hin]; [contradiction | now apply IH].
Qed.

Lemma name_get_update_nil (items : list (string * Rule)) (n : string) :
  NoDup (map fst items) ->
  name_get (name_update [] items) n = name_get items n.
Proof.
  intros Hnd. destruct (name_get items n) as [a|] eqn:Hg.
  - now apply name_get_update_last.
  - now rewrite (name_get_update_other items [] n (name_get_none _ _ Hg)).
Qed.

(** X4. The merged name map answers for every name: the automatic rule
    when the automatic map has the name, and otherwise whatever the
    manual map has, a rule or nothing. *)
Theorem dict_unpack2_get (manual auto : NameDict) (n : string) :
  NoDup (map fst manual) ->
  NoDup (map fst auto) ->
  name_get (dict_unpack2 manual auto) n
  = match name_get auto n with
    | Some b => Some b
    | None => name_get manual n
    end.
Proof.
  intros Hm Ha. unfold dict_unpack2.
  destruct (name_get auto n) as [b|] eqn:Hg.
  - now apply name_get_update_last.
  - rewrite (name_get_update_other auto _ n (name_get_none _ _ Hg)).
    now apply name_get_update_nil.
Qed.

Lemma dict_unpack2_get_witness :
  name_get (dict_unpack2 [("m.f", ConstantVariable);
                          ("m.g", TorchInGraphFunctionVariable)]
                         [("m.f", TorchCtxManagerClassVariable)]) "m.g"
  = match name_get [("m.f", TorchCtxManagerClassVariable)] "m.g" with
    | Some b => Some b
    | None => name_get [("m.f", ConstantVariable);
                        ("m.g", TorchInGraphFunctionVariable)] "m.g"
    end.
Proof.
  apply dict_unpack2_get.
  - simpl. constructor; [intros [H | []]; discriminate H|].
    constructor; [intros [] | constructor].
  - simpl. constructor; [intros [] | constructor].
Defined.

Lemma name_set_keys (d : NameDict) (k : string) (v : Rule) :
  map fst (name_set d k v)
  = if existsb (String.eqb k) (map fst d) then map fst d
    else (map fst d ++ [k])%list.
Proof.
  induction d as [|[k' v'] d IH]; simpl; [reflexivity|].
  rewrite (String.eqb_sym k k').
  destruct (String.eqb k' k); simpl; [reflexivity|].
  rewrite IH. now destruct (existsb (String.eqb k) (map fst d)).
Qed.

Lemma name_set_NoDup (d : NameDict) (k : string) (v : Rule) :
  NoDup (map fst d) -> NoDup (map fst (name_set d k v)).
Proof.
  intros Hnd. rewrite name_set_keys.
  destruct (existsb (String.eqb k) (map fst d)) eqn:Hex; [exact Hnd|].
  apply NoDup_app; [exact Hnd | constructor; [intros [] | constructor] |].
  intros x Hx [<- | []].
  assert (existsb (String.eqb k) (map fst d) = true); [|congruence].
  apply existsb_exists. exists k. split; [exact Hx | apply String.eqb_refl].
Qed.

Lemma name_update_NoDup (items : list (string * Rule)) (d : NameDict) :
  NoDup (map fst d) -> NoDup (map fst (name_update d items)).
Proof.
  revert d. induction items as [|[k v] items IH]; intros d Hnd; [exact Hnd|].
  apply (IH (name_set d k v)). now apply name_set_NoDup.
Qed.

(** X5. The merged name map never has a name twice, whatever the two
    maps it is made of: each name is iterated once by the loop of
    [get_torch_obj_rule_map]. *)
Theorem dict_unpack2_NoDup (manual auto : list (string * Rule)) :
  NoDup (map fst (dict_unpack2 manual auto)).
Proof.
  unfold dict_unpack2. apply name_update_NoDup, name_update_NoDup.
  constructor.
Qed.

Lemma name_set_fresh (d : NameDict) (k : string) (v : Rule) :
  ~ In k (map fst d) -> name_set d k v = (d ++ [(k, v)])%list.
Proof.
  induction d as [|[k' v'] d IH]; simpl; [reflexivity|].
  intros Hn. destruct (String.eqb_spec k' k) as [->|_]; [tauto|].
  rewrite IH; tauto.
Qed.

Lemma name_update_fresh (items : list (string * Rule)) (d : NameDict) :
  NoDup (map fst (d ++ items)%list) ->
  name_update d items = (d ++ items)%list.
Proof.
  revert d. induction items as [|[k v] items IH]; intros d Hnd.
  - now rewrite app_nil_r.
  - change (name_update d ((k, v) :: items))
      with (name_update (name_set d k v) items).
    rewrite map_app in Hnd. simpl in Hnd.
    pose proof (NoDup_remove_2 _ _ _ Hnd) as Hk.
    rewrite name_set_fresh by (intros Hin; apply Hk, in_or_app; now left).
    rewrite IH.
    + now rewrite <- app_assoc.
    + rewrite <- app_assoc, map_app. exact Hnd.
Qed.

(** X6. When no name is declared twice, in either map or across the two,
    the merged map is the manual entries followed by the automatic ones,
    in their order: that is the order in which the table is filled. *)
Theorem dict_unpack2_disjoint (manual auto : list (string * Rule)) :
  NoDup (map fst (manual ++ auto)%list) ->
  dict_unpack2 manual auto = (manual ++ auto)%list.
Proof.
  intros Hnd. unfold dict_unpack2.
  rewrite (name_update_fresh manual []).
  - now apply name_update_fresh.
  - simpl. rewrite map_app in Hnd. now apply NoDup_app_remove_r in Hnd.
Qed.

Lemma dict_unpack2_disjoint_witness :
  dict_unpack2 [("m.f", ConstantVariable)]
               [("m.g", TorchCtxManagerClassVariable)]
  = [("m.f", ConstantVariable); ("m.g", TorchCtxManagerClassVariable)].
Proof.
  apply (dict_unpack2_disjoint [("m.f", ConstantVariable)]
           [("m.g", TorchCtxManagerClassVariable)]).
  simpl. constructor; [intros [H | []]; discriminate H|].
  constructor; [intros [] | constructor].
Defined.

Example shipped_maps_do_not_collide :
  forallb (fun kv => match name_get Shipped.manual_torch_name_rule_map (fst kv)
                     with Some _ => false | None => true end)
          Shipped.auto_torch_name_rule_map = true
  /\ Shipped.torch_name_rule_map
     = (Shipped.manual_torch_name_rule_map
        ++ Shipped.auto_torch_name_rule_map)%list.
Proof. split; vm_compute; reflexivity. Qed.

(** ** The rule table: when it builds and what it holds *)

Section TableInvariants.

Variable E : Env.

Lemma rule_map_step_ok (d : ObjDict) (kv : string * Rule) :
  entry_ok E kv = true ->
  rule_map_step E d kv
  = Ok (match load_object E (fst kv) with
        | Ok o => assoc_set E d o (snd kv)
        | Err _ => d
        end).
Proof.
  unfold entry_ok, rule_map_step.
  destruct (load_object E (fst kv)) as [o|e]; cbn [bind].
  - unfold dict_set. now intros ->.
  - now intros ->.
Qed.

Lemma rule_map_step_err (d : ObjDict) (kv : string * Rule) :
  entry_ok E kv = false ->
  exists e, rule_map_step E d kv = Err e
            /\ (load_object E (fst kv) = Err e
                \/ exists o, load_object E (fst kv) = Ok o
                             /\ hashable E o = false /\ e = TypeError).
Proof.
  unfold entry_ok, rule_map_step.
  destruct (load_object E (fst kv)) as [o|e]; cbn [bind].
  - unfold dict_set. intros Hh. rewrite Hh. exists TypeError.
    split; [reflexivity|]. right. exists o. now repeat split.
  - intros ->. exists e. split; [reflexivity | now left].
Qed.

Lemma rule_map_loop_ok_iff (items : list (string * Rule)) (d : ObjDict) :
  (exists table, rule_map_loop E items d = Ok table)
  <-> forallb (entry_ok E) items = true.
Proof.
  revert d. induction items as [|kv items IH]; intros d; simpl.
  - split; [reflexivity | now exists d].
  - destruct (entry_ok E kv) eqn:Hk; simpl.
    + rewrite (rule_map_step_ok d kv Hk). cbn [bind]. apply IH.
    + destruct (rule_map_step_err d kv Hk) as [e [-> _]]. cbn [bind].
      split; [intros [t Ht]; discriminate | discriminate].
Qed.

Lemma rule_map_loop_err_entry (items : list (string * Rule)) (d : ObjDict)
  (e : exn) :
  rule_map_loop E items d = Err e ->
  exists n v, In (n, v) items
              /\ (load_object E n = Err e
                  \/ exists o, load_object E n = Ok o
                               /\ hashable E o = false /\ e = TypeError).
Proof.
  revert d. induction items as [|[n v] items IH]; intros d; simpl;
    [discriminate|].
  destruct (entry_ok E (n, v)) eqn:Hk.
  - rewrite (rule_map_step_ok d (n, v) Hk). cbn [bind]. intros H.
    destruct (IH _ H) as [n' [v' [Hin Hc]]]. exists n', v'. split; [now right | exact Hc].
  - destruct (rule_map_step_err d (n, v) Hk) as [e' [-> Hc]]. cbn [bind].
    intros [= <-]. exists n, v. split; [now left | exact Hc].
Qed.

Lemma existsb_assoc_set_other (d : ObjDict) (k0 k : ref) (v : Rule) :
  key_eq E k0 k = false ->
  existsb (fun kv => key_eq E k0 (fst kv)) (assoc_set E d k v)
  = existsb (fun kv => key_eq E k0 (fst kv)) d.
Proof.
  intros Hk. induction d as [|[k' v'] d IH]; simpl.
  - now rewrite Hk.
  - destruct (key_eq E k' k); simpl; [reflexivity | now rewrite IH].
Qed.

Lemma assoc_set_distinct (d : ObjDict) (k : ref) (v : Rule) :
  distinct_keys E d = true -> distinct_keys E (assoc_set E d k v) = true.
Proof.
  induction d as [|[k' v'] d IH]; simpl; [reflexivity|].
  intros H. apply andb_true_iff in H. destruct H as [Hh Ht].
  destruct (key_eq E k' k) eqn:Hk; simpl.
  - now rewrite Hh, Ht.
  - now rewrite (existsb_assoc_set_other d k' k v Hk), Hh, (IH Ht).
Qed.

Lemma assoc_set_length (d : ObjDict) (k : ref) (v : Rule) :
  (List.length (assoc_set E d k v) <= S (List.length d))%nat.
Proof.
  induction d as [|[k' v'] d IH]; simpl; [lia|].
  destruct (key_eq E k' k); simpl; lia.
Qed.

Lemma assoc_set_In (d : ObjDict) (k o : ref) (v r : Rule) :
  In (o, r) (assoc_set E d k v) ->
  In (o, r) d \/ (r = v /\ key_eq E k o = true).
Proof.
  induction d as [|[k' v'] d IH]; simpl.
  - intros [[= <- <-] | []]. right. split; [reflexivity | apply key_eq_refl].
  - destruct (key_eq E k' k) eqn:Hk; simpl.
    + intros [[= <- <-] | Hin]; [|now left; right].
      right. split; [reflexivity|]. now rewrite key_eq_sym.
    + intros [Heq | Hin]; [now left; left|].
      destruct (IH Hin) as [H | H]; [now left; right | now right].
Qed.

Lemma assoc_set_key_In (d : ObjDict) (k o : ref) (v : Rule) :
  In o (map fst (assoc_set E d k v)) -> In o (map fst d) \/ o = k.
Proof.
  induction d as [|[k' v'] d IH]; simpl.
  - intros [<- | []]. now right.
  - destruct (key_eq E k' k); simpl; [now left|].
    intros [Heq | Hin]; [now left; left|].
    destruct (IH Hin) as [H | H]; [now left; right | now right].
Qed.

(** What the loop keeps true of the dict it fills. *)
Lemma rule_map_loop_invariant (items : list (string * Rule))
  (d table : ObjDict) :
  rule_map_loop E items d = Ok table ->
  (distinct_keys E d = true -> distinct_keys E table = true)
  /\ ((forall o, In o (map fst d) -> hashable E o = true) ->
      forall o, In o (map fst table) -> hashable E o = true)
  /\ (List.length table <= List.length d + List.length items)%nat
  /\ (forall o, In o (map fst table) ->
        In o (map fst d)
        \/ exists n v, In (n, v) items /\ load_object E n = Ok o)
  /\ (forall o r, In (o, r) table ->
        In (o, r) d
        \/ exists n o', In (n, r) items /\ load_object E n = Ok o'
                        /\ key_eq E o' o = true).
Proof.
  revert d. induction items as [|[n v] items IH]; intros d Hl.
  - simpl in Hl. injection Hl as <-.
    repeat split; auto. lia.
  - simpl in Hl.
    destruct (rule_map_step E d (n, v)) as [d1|e] eqn:Hs; [|discriminate].
    cbn [bind] in Hl.
    destruct (IH d1 Hl) as [Hd [Hh [Hlen [Hkeys Hvals]]]].
    apply rule_map_step_inv in Hs.
    destruct Hs as [[o0 [Ho0 [Hh0 ->]]] | [e [He ->]]].
    + split; [|split; [|split; [|split]]].
      * intros H. now apply Hd, assoc_set_distinct.
      * intros H. apply Hh. intros o Hin.
        destruct (assoc_set_key_In d o0 o v Hin) as [Hin' | ->]; auto.
      * pose proof (assoc_set_length d o0 v). simpl. lia.
      * intros o Hin. destruct (Hkeys o Hin) as [Hin' | [n' [v' [Hin' Hn']]]].
        -- destruct (assoc_set_key_In d o0 o v Hin') as [H | ->];
             [now left | right].
           exists n, v. split; [now left | exact Ho0].
        -- right. exists n', v'. split; [now right | exact Hn'].
      * intros o r Hin.
        destruct (Hvals o r Hin) as [Hin' | [n' [o' [Hin' Hn']]]].
        -- destruct (assoc_set_In d o0 o v r Hin') as [H | [-> Hk]];
             [now left | right].
           exists n, o0. split; [now left | now split].
        -- right. exists n', o'. split; [now right | exact Hn'].
    + split; [|split; [|split; [|split]]]; auto.
      * simpl. lia.
      * intros o Hin. destruct (Hkeys o Hin) as [Hin' | [n' [v' [Hin' Hn']]]];
          [now left | right].
        exists n', v'. split; [now right | exact Hn'].
      * intros o r Hin.
        destruct (Hvals o r Hin) as [Hin' | [n' [o' [Hin' Hn']]]];
          [now left | right].
        exists n', o'. split; [now right | exact Hn'].
Qed.

(** An entry once written is never removed. *)
Lemma rule_map_loop_keeps (items : list (string * Rule)) (d table : ObjDict)
  (o : ref) :
  rule_map_loop E items d = Ok table ->
  assoc_get E d o <> None -> assoc_get E table o <> None.
Proof.
  revert d. induction items as [|[n v] items IH]; intros d Hl Hd.
  - simpl in Hl. now injection Hl as <-.
  - simpl in Hl.
    destruct (rule_map_step E d (n, v)) as [d1|e] eqn:Hs; [|discriminate].
    cbn [bind] in Hl. apply (IH d1 Hl).
    apply rule_map_step_inv in Hs.
    destruct Hs as [[o0 [_ [_ ->]]] | [e [_ ->]]]; [|exact Hd].
    rewrite assoc_get_set. now destruct (key_eq E o0 o).
Qed.

Lemma rule_map_loop_has (items : list (string * Rule)) (d table : ObjDict)
  (n : string) (v : Rule) (o : ref) :
  rule_map_loop E items d = Ok table ->
  In (n, v) items -> load_object E n = Ok o ->
  assoc_get E table o <> None.
Proof.
  revert d. induction items as [|[n0 v0] items IH]; intros d Hl Hin Hload;
    [contradiction|].
  simpl in Hl.
  destruct (rule_map_step E d (n0, v0)) as [d1|e] eqn:Hs; [|discriminate].
  cbn [bind] in Hl. destruct Hin as [[= -> ->] | Hin].
  - apply (rule_map_loop_keeps items d1 table o Hl).
    apply rule_map_step_inv in Hs.
    destruct Hs as [[o0 [Ho0 [_ ->]]] | [e [He _]]]; [|congruence].
    rewrite assoc_get_set.
    assert (o0 = o) as -> by congruence.
    now rewrite key_eq_refl.
  - now apply (IH d1).
Qed.

End TableInvariants.

(** X7. The table builds exactly when every entry of the name map either
    loads to a hashable object or fails to load with [AttributeError] or
    [ModuleNotFoundError]. *)
Theorem get_torch_obj_rule_map_ok_iff (E : Env) (names : NameDict) :
  (exists table, get_torch_obj_rule_map E names = Ok table)
  <-> forallb (entry_ok E) names = true.
Proof. apply rule_map_loop_ok_iff. Qed.

(** X8. An exception that leaves [get_torch_obj_rule_map] is never one of
    the two the handler lists, and it comes from one declared entry:
    either [load_object] raised it for that name, or the name loaded to
    an unhashable object and the exception is the [TypeError] of
    [d[obj] = v]. *)
Theorem get_torch_obj_rule_map_error (E : Env) (names : NameDict) (e : exn) :
  get_torch_obj_rule_map E names = Err e ->
  e <> AttributeError /\ e <> ModuleNotFoundError
  /\ exists n v, In (n, v) names
                 /\ (load_object E n = Err e
                     \/ exists o, load_object E n = Ok o
                                  /\ hashable E o = false /\ e = TypeError).
Proof.
  intros H. pose proof (rule_map_loop_uncaught E names [] e H) as Hc.
  split; [|split].
  - intros ->. discriminate.
  - intros ->. discriminate.
  - exact (rule_map_loop_err_entry E names [] e H).
Qed.

Lemma get_torch_obj_rule_map_error_witness :
  TypeError <> AttributeError /\ TypeError <> ModuleNotFoundError
  /\ exists n v, In (n, v) [("m.f", ConstantVariable);
                            ("m.table", ConstantVariable)]
                 /\ (load_object World.env n = Err TypeError
                     \/ exists o, load_object World.env n = Ok o
                                  /\ hashable World.env o = false
                                  /\ TypeError = TypeError).
Proof.
  apply (get_torch_obj_rule_map_error World.env
           [("m.f", ConstantVariable); ("m.table", ConstantVariable)]).
  reflexivity.
Defined.

(** X9. The table that is built has hashable keys, no two of which are
    equal as dict keys, and at most as many entries as the name map. *)
Theorem get_torch_obj_rule_map_keys (E : Env) (names : NameDict)
  (table : ObjDict) :
  get_torch_obj_rule_map E names = Ok table ->
  distinct_keys E table = true
  /\ (forall o, In o (map fst table) -> hashable E o = true)
  /\ (List.length table <= List.length names)%nat.
Proof.
  intros H.
  destruct (rule_map_loop_invariant E names [] table H)
    as [Hd [Hh [Hlen _]]].
  split; [now apply Hd | split; [apply Hh; intros o [] | exact Hlen]].
Qed.

Lemma get_torch_obj_rule_map_keys_witness :
  distinct_keys World.env [(10, TorchInGraphFunctionVariable);
                           (21, ConstantVariable)] = true
  /\ (forall o, In o (map fst [(10, TorchInGraphFunctionVariable);
                               (21, ConstantVariable)]) ->
                hashable World.env o = true)
  /\ (List.length [(10, TorchInGraphFunctionVariable);
                   (21, ConstantVariable)] <= 4)%nat.
Proof.
  apply (get_torch_obj_rule_map_keys World.env
           [("m.f", ConstantVariable); ("m.gen#get_state", ConstantVariable);
            ("m.nope", ConstantVariable);
            ("m.g", TorchInGraphFunctionVariable)]).
  reflexivity.
Defined.

(** X10. Nothing is in the table that the name map did not put there:
    every key is the object some declared name loads to, and every rule
    stored under a key is declared for a name that loads to an object
    equal to that key. *)
Theorem get_torch_obj_rule_map_sound (E : Env) (names : NameDict)
  (table : ObjDict) (o : ref) (r : Rule) :
  get_torch_obj_rule_map E names = Ok table ->
  In (o, r) table ->
  (exists n v, In (n, v) names /\ load_object E n = Ok o)
  /\ (exists n o', In (n, r) names /\ load_object E n = Ok o'
                   /\ key_eq E o' o = true).
Proof.
  intros H Hin.
  destruct (rule_map_loop_invariant E names [] table H)
    as [_ [_ [_ [Hkeys Hvals]]]].
  split.
  - destruct (Hkeys o) as [[] | Hk]; [|exact Hk].
    apply in_map_iff. now exists (o, r).
  - destruct (Hvals o r Hin) as [[] | Hv]. exact Hv.
Qed.

Lemma get_torch_obj_rule_map_sound_witness :
  (exists n v, In (n, v) [("m.f", ConstantVariable);
                          ("m.g", TorchInGraphFunctionVariable)]
               /\ load_object World.env n = Ok 10)
  /\ (exists n o', In (n, TorchInGraphFunctionVariable)
                      [("m.f", ConstantVariable);
                       ("m.g", TorchInGraphFunctionVariable)]
                   /\ load_object World.env n = Ok o'
                   /\ key_eq World.env o' 10 = true).
Proof.
  apply (get_torch_obj_rule_map_sound World.env
           [("m.f", ConstantVariable); ("m.g", TorchInGraphFunctionVariable)]
           [(10, TorchInGraphFunctionVariable)]).
  - reflexivity.
  - now left.
Defined.

(** X11. Every declared name that loads has an entry: when the table
    builds, the object a declared name loads to is found in it. *)
Theorem get_torch_obj_rule_map_complete (E : Env) (names : NameDict)
  (table : ObjDict) (n : string) (v : Rule) (o : ref) :
  get_torch_obj_rule_map E names = Ok table ->
  In (n, v) names ->
  load_object E n = Ok o ->
  exists r, dict_get E table o = Ok (Some r).
Proof.
  intros H Hin Hload. unfold dict_get.
  rewrite (rule_map_loop_hashable E names [] table n v o H Hin Hload).
  pose proof (rule_map_loop_has E names [] table n v o H Hin Hload) as Hs.
  destruct (assoc_get E table o) as [r|]; [now exists r | congruence].
Qed.

Lemma get_torch_obj_rule_map_complete_witness :
  exists r, dict_get World.env [(10, TorchInGraphFunctionVariable)] 10
            = Ok (Some r).
Proof.
  apply (get_torch_obj_rule_map_complete World.env
           [("m.f", ConstantVariable); ("m.g", TorchInGraphFunctionVariable)]
           [(10, TorchInGraphFunctionVariable)] "m.f" ConstantVariable 10);
    [reflexivity | now left | reflexivity].
Defined.

Lemma get_torch_obj_rule_map_ok_iff_witness :
  forallb (entry_ok World.env)
          [("m.f", ConstantVariable); ("torch.removed.api", ConstantVariable)]
  = true.
Proof.
  apply (proj1 (get_torch_obj_rule_map_ok_iff World.env
                  [("m.f", ConstantVariable);
                   ("torch.removed.api", ConstantVariable)])).
  exists [(10, ConstantVariable)]. reflexivity.
Defined.

(** ** The native methods of [torch.Tensor] *)

Section TensorMethods.

Variable E : Env.

Lemma set_add_In (s s' : list ref) (k m : ref) :
  set_add E s k = Ok s' -> In m s' -> In m s \/ (m = k /\ hashable E k = true).
Proof.
  unfold set_add. destruct (hashable E k); [|discriminate].
  destruct (existsb _ s); intros [= <-] Hin; [now left|].
  apply in_app_or in Hin. destruct Hin as [H | [<- | []]]; [now left|].
  now right.
Qed.

Lemma set_add_self (s s' : list ref) (k : ref) :
  set_add E s k = Ok s' -> set_contains E s' k = Ok true.
Proof.
  intros H. unfold set_contains.
  rewrite (set_add_contains E s s' k k H), key_eq_refl, orb_true_r.
  unfold set_add in H. now destruct (hashable E k).
Qed.

Lemma set_add_keeps (s s' : list ref) (k m : ref) :
  set_add E s k = Ok s' ->
  set_contains E s m = Ok true -> set_contains E s' m = Ok true.
Proof.
  intros H. unfold set_contains.
  destruct (hashable E m); [|discriminate].
  rewrite (set_add_contains E s s' k m H).
  intros [= ->]. reflexivity.
Qed.

Lemma tensor_method_loop_sound (names : list string) (s0 s : list ref) :
  tensor_method_loop E names s0 = Ok s ->
  forall m, In m s ->
    In m s0
    \/ (hashable E m = true /\ isinstance E m [KMethodDescriptor; KWrapperDescriptor] = true
        /\ exists name, In name names
                        /\ getattr E (torch_Tensor E) name = Ok m).
Proof.
  revert s0. induction names as [|name names IH]; intros s0 Hl m Hin.
  - simpl in Hl. injection Hl as <-. now left.
  - cbn [tensor_method_loop] in Hl.
    destruct (getattr E (torch_Tensor E) name) as [method|e] eqn:Hg;
      [|discriminate].
    cbn [bind] in Hl.
    destruct (isinstance E method [KMethodDescriptor; KWrapperDescriptor]) eqn:Hi.
    + destruct (set_add E s0 method) as [s1|e] eqn:Ha; [|discriminate].
      cbn [bind] in Hl.
      destruct (IH s1 Hl m Hin) as [H | [Hh [Hk [n' [Hn' Hg']]]]].
      * destruct (set_add_In s0 s1 method m Ha H) as [H' | [-> Hh]];
          [now left | right].
        repeat split; try assumption. exists name. split; [now left | exact Hg].
      * right. repeat split; try assumption. exists n'. split; [now right | exact Hg'].
    + cbn [bind] in Hl.
      destruct (IH s0 Hl m Hin) as [H | [Hh [Hk [n' [Hn' Hg']]]]];
        [now left | right].
      repeat split; try assumption. exists n'. split; [now right | exact Hg'].
Qed.

Lemma tensor_method_loop_complete (names : list string) (s0 s : list ref)
  (m : ref) :
  tensor_method_loop E names s0 = Ok s ->
  set_contains E s0 m = Ok true
  \/ (exists name, In name names /\ getattr E (torch_Tensor E) name = Ok m
                   /\ isinstance E m [KMethodDescriptor; KWrapperDescriptor] = true) ->
  set_contains E s m = Ok true.
Proof.
  revert s0. induction names as [|name names IH]; intros s0 Hl Hsrc.
  - simpl in Hl. injection Hl as <-.
    destruct Hsrc as [H | [n [[] _]]]. exact H.
  - cbn [tensor_method_loop] in Hl.
    destruct (getattr E (torch_Tensor E) name) as [method|e] eqn:Hg;
      [|discriminate].
    cbn [bind] in Hl.
    destruct (isinstance E method [KMethodDescriptor; KWrapperDescriptor]) eqn:Hi.
    + destruct (set_add E s0 method) as [s1|e] eqn:Ha; [|discriminate].
      cbn [bind] in Hl. apply (IH s1 Hl).
      destruct Hsrc as [H | [n [[<- | Hin] [Hn Hk]]]].
      * left. now apply set_add_keeps with s0 method.
      * left. assert (method = m) as <- by congruence.
        now apply set_add_self with s0.
      * right. now exists n.
    + cbn [bind] in Hl. apply (IH s0 Hl).
      destruct Hsrc as [H | [n [[<- | Hin] [Hn Hk]]]].
      * now left.
      * congruence.
      * right. now exists n.
Qed.

(** X12. The set of native tensor methods holds exactly the method
    descriptors and wrapper descriptors among the attributes that
    [dir(torch.Tensor)] lists: every member is one, and is hashable; and
    every such attribute is found in the set. *)
Theorem get_tensor_method_members (s : list ref) :
  get_tensor_method E = Ok s ->
  (forall m, In m s ->
     hashable E m = true
     /\ isinstance E m [KMethodDescriptor; KWrapperDescriptor] = true
     /\ exists name, In name (dir E (torch_Tensor E))
                     /\ getattr E (torch_Tensor E) name = Ok m)
  /\ (forall name m,
        In name (dir E (torch_Tensor E)) ->
        getattr E (torch_Tensor E) name = Ok m ->
        isinstance E m [KMethodDescriptor; KWrapperDescriptor] = true ->
        set_contains E s m = Ok true).
Proof.
  intros H. split.
  - intros m Hin.
    destruct (tensor_method_loop_sound _ _ _ H m Hin)
      as [[] | [Hh [Hk [n [Hd Hg]]]]].
    repeat split; try assumption. now exists n.
  - intros name m Hd Hg Hk.
    apply (tensor_method_loop_complete _ _ _ m H).
    right. exists name. now repeat split.
Qed.

(** X13. A method descriptor or wrapper descriptor that
    [dir(torch.Tensor)] lists is an in-graph function whatever
    [is_allowed] says about it. *)
Theorem is_in_graph_function_tensor_method (s : list ref) (name : string)
  (m : ref) :
  get_tensor_method E = Ok s ->
  In name (dir E (torch_Tensor E)) ->
  getattr E (torch_Tensor E) name = Ok m ->
  isinstance E m [KMethodDescriptor; KWrapperDescriptor] = true ->
  is_in_graph_function E m = Ok true.
Proof.
  intros Hs Hd Hg Hk. unfold is_in_graph_function.
  rewrite Hs. cbn [bind].
  rewrite (proj2 (get_tensor_method_members s Hs) name m Hd Hg Hk).
  reflexivity.
Qed.

End TensorMethods.

Lemma get_tensor_method_members_witness :
  (forall m, In m [80; 82] ->
     hashable World.env m = true
     /\ isinstance World.env m [KMethodDescriptor; KWrapperDescriptor] = true
     /\ exists name, In name (dir World.env (torch_Tensor World.env))
                     /\ getattr World.env (torch_Tensor World.env) name = Ok m)
  /\ (forall name m,
        In name (dir World.env (torch_Tensor World.env)) ->
        getattr World.env (torch_Tensor World.env) name = Ok m ->
        isinstance World.env m [KMethodDescriptor; KWrapperDescriptor] = true ->
        set_contains World.env [80; 82] m = Ok true).
Proof. apply (get_tensor_method_members World.env [80; 82]). reflexivity. Defined.

Lemma is_in_graph_function_tensor_method_witness :
  is_in_graph_function World.env 82 = Ok true.
Proof.
  apply (is_in_graph_function_tensor_method World.env [80; 82] "__add__" 82);
    try reflexivity.
  simpl. right. right. now left.
Defined.

(** ** [lookup]: how its steps compose *)

(** X14. An object the Allow predicate accepts, hashable and not
    disallowed, is a graph operation before the rule table is even
    built: whatever the rule names, whether or not they load, and
    whatever kind of object it is. *)
Theorem lookup_user_allowed (E : Env) (names : NameDict) (o : ref) :
  hashable E o = true ->
  ~ In o (_disallowed_function_ids E) ->
  is_user_defined_allowed E o = true ->
  lookup E names o = Ok (Some TorchInGraphFunctionVariable).
Proof.
  intros Hh Hd Ha. unfold lookup.
  now rewrite Hh, (not_disallowed _ _ Hd), Ha.
Qed.

Lemma lookup_user_allowed_witness :
  lookup (World.with_user_allowed [30])
         [("m.Ctx", TorchCtxManagerClassVariable);
          ("a#b#c", ConstantVariable)] 30
  = Ok (Some TorchInGraphFunctionVariable).
Proof.
  apply lookup_user_allowed; try reflexivity. intros [].
Defined.



(** X16. A rule found in the table is final: [lookup] returns it without
    asking the fallback, so neither [is_allowed] nor a failure to
    enumerate the tensor methods can change the answer. *)
Theorem lookup_table_rule (E : Env) (names : NameDict) (o o' : ref)
  (table : ObjDict) (r : Rule) :
  hashable E o = true ->
  ~ In o (_disallowed_function_ids E) ->
  is_user_defined_allowed E o = false ->
  isinstance E o [KStr] = false ->
  unwrap_guard E o = Ok o' ->
  get_torch_obj_rule_map E names = Ok table ->
  dict_get E table o' = Ok (Some r) ->
  lookup E names o = Ok (Some r).
Proof.
  intros Hh Hd Ha Hs Hu Ht Hg.
  rewrite (lookup_past_overrides E names o Hh Hd Ha Hs), Hu. cbn [bind].
  unfold rule_or_fallback. rewrite Ht. cbn [bind]. now rewrite Hg.
Qed.

Lemma lookup_table_rule_witness :
  lookup (World.with_allowed [10]) [("m.f", TorchCtxManagerClassVariable)] 10
  = Ok (Some TorchCtxManagerClassVariable).
Proof.
  apply (lookup_table_rule (World.with_allowed [10]) _ 10 10
           [(10, TorchCtxManagerClassVariable)]);
    try reflexivity.
  intros [].
Defined.

(** X17. [lookup] answers [ConstantVariable] only for a string or from
    the table, and [TorchCtxManagerClassVariable] only from the table:
    any rule other than [TorchInGraphFunctionVariable] is either the
    string rule or the table entry of the object left by the unwrap
    guard. *)
Theorem lookup_rule_origin (E : Env) (names : NameDict) (o : ref) (r : Rule) :
  lookup E names o = Ok (Some r) ->
  r <> TorchInGraphFunctionVariable ->
  (r = ConstantVariable /\ isinstance E o [KStr] = true)
  \/ (exists table o',
        get_torch_obj_rule_map E names = Ok table
        /\ unwrap_guard E o = Ok o'
        /\ dict_get E table o' = Ok (Some r)).
Proof.
  unfold lookup. intros H Hr.
  destruct (negb (hashable E o)); [discriminate|].
  destruct (existsb (Z.eqb o) (_disallowed_function_ids E)); [discriminate|].
  destruct (is_user_defined_allowed E o); [congruence|].
  destruct (isinstance E o [KStr]).
  - injection H as <-. now left.
  - right. destruct (unwrap_guard E o) as [o'|e]; [|discriminate].
    cbn [bind] in H. unfold rule_or_fallback in H.
    destruct (get_torch_obj_rule_map E names) as [table|e]; [|discriminate].
    cbn [bind] in H.
    destruct (dict_get E table o') as [[r0|]|e] eqn:Hg; cbn [bind] in H;
      [| |discriminate].
    + injection H as <-. now exists table, o'.
    + destruct (is_in_graph_function E o') as [[|]|e]; cbn [bind] in H;
        congruence.
Qed.

Lemma lookup_rule_origin_witness :
  (TorchCtxManagerClassVariable = ConstantVariable
   /\ isinstance World.env 30 [KStr] = true)
  \/ (exists table o',
        get_torch_obj_rule_map World.env
          [("m.Ctx", TorchCtxManagerClassVariable)] = Ok table
        /\ unwrap_guard World.env 30 = Ok o'
        /\ dict_get World.env table o' = Ok (Some TorchCtxManagerClassVariable)).
Proof.
  apply (lookup_rule_origin World.env
           [("m.Ctx", TorchCtxManagerClassVariable)] 30);
    [reflexivity | discriminate].
Defined.

(** X18. [lookup] sees through one decorator: a wrapper whose
    [__qualname__] is not reserved gets the answer of the function it
    wraps, when both get past the override and string tests and the
    wrapped function has no [__wrapped__] of its own. *)
Theorem lookup_through_wrapper (E : Env) (names : NameDict) (o w : ref) :
  getattr E o "__wrapped__" = Ok w ->
  has_reserved_qualname E o = false ->
  hasattr E w "__wrapped__" = false ->
  hashable E o = true -> hashable E w = true ->
  ~ In o (_disallowed_function_ids E) ->
  ~ In w (_disallowed_function_ids E) ->
  is_user_defined_allowed E o = false ->
  is_user_defined_allowed E w = false ->
  isinstance E o [KStr] = false -> isinstance E w [KStr] = false ->
  lookup E names o = lookup E names w.
Proof.
  intros Hw Hq Hnw Hho Hhw Hdo Hdw Hao Haw Hso Hsw.
  rewrite (lookup_past_overrides E names o Hho Hdo Hao Hso).
  rewrite (lookup_past_overrides E names w Hhw Hdw Haw Hsw).
  rewrite unwrap_guard_spec, Hw, Hq.
  unfold unwrap_guard. now rewrite Hnw.
Qed.

Lemma lookup_through_wrapper_witness :
  lookup (World.with_allowed [41]) [("m.Ctx", TorchCtxManagerClassVariable)] 40
  = lookup (World.with_allowed [41])
           [("m.Ctx", TorchCtxManagerClassVariable)] 41.
Proof.
  apply lookup_through_wrapper; try reflexivity; intros [].
Defined.

Example wrapper_of_disallowed_function :
  lookup (mkEnv World.heap World.import_module [41] (fun _ => true)
                (fun _ => false) 2) [] 41 = Ok None
  /\ lookup (mkEnv World.heap World.import_module [41] (fun _ => true)
                   (fun _ => false) 2) [] 40
     = Ok (Some TorchInGraphFunctionVariable).
Proof. split; reflexivity. Qed.

(** X19. A declared rule is found again: when the table builds and the
    name [n] with rule [v] loads to [o], every object that gets past the
    override and string tests and that the unwrap guard turns into [o]
    (the object [o] itself, or a wrapper of it) is given [v], provided no
    declared name that loads to a key equal to [o] carries another
    rule. *)
Theorem lookup_declared_rule (E : Env) (names : NameDict) (table : ObjDict)
  (n : string) (v : Rule) (o x : ref) :
  get_torch_obj_rule_map E names = Ok table ->
  In (n, v) names ->
  load_object E n = Ok o ->
  (forall m v' o', In (m, v') names -> load_object E m = Ok o' ->
                   key_eq E o' o = true -> v' = v) ->
  hashable E x = true ->
  ~ In x (_disallowed_function_ids E) ->
  is_user_defined_allowed E x = false ->
  isinstance E x [KStr] = false ->
  unwrap_guard E x = Ok o ->
  lookup E names x = Ok (Some v).
Proof.
  intros Ht Hin Hload Hall Hh Hd Ha Hs Hu.
  apply (lookup_table_rule E names x o table v Hh Hd Ha Hs Hu Ht).
  unfold dict_get.
  rewrite (rule_map_loop_hashable E names [] table n v o Ht Hin Hload).
  f_equal. apply (rule_map_loop_assigns E o v names [] table Ht Hall).
  left. exists n, o. repeat split; try assumption. apply key_eq_refl.
Qed.

Lemma lookup_declared_rule_witness :
  lookup World.env [("m.deco", TorchCtxManagerClassVariable)] 40
  = Ok (Some TorchCtxManagerClassVariable)
  /\ lookup World.env [("m.deco", TorchCtxManagerClassVariable)] 41
     = Ok (Some TorchCtxManagerClassVariable).
Proof.
  split.
  - apply (lookup_declared_rule World.env _
             [(41, TorchCtxManagerClassVariable)] "m.deco" _ 41 40);
      try reflexivity.
    + now left.
    + intros m v' o' [[= <- <-] | []]. reflexivity.
    + intros [].
  - apply (lookup_declared_rule World.env _
             [(41, TorchCtxManagerClassVariable)] "m.deco" _ 41 41);
      try reflexivity.
    + now left.
    + intros m v' o' [[= <- <-] | []]. reflexivity.
    + intros [].
Defined.

(** X20. A method descriptor or wrapper descriptor that
    [dir(torch.Tensor)] lists, that has no [__wrapped__], gets past the override tests and has no
    rule in the table is a graph operation, whatever [is_allowed] says. *)
Theorem lookup_tensor_method (E : Env) (names : NameDict) (table : ObjDict)
  (s : list ref) (name : string) (m : ref) :
  In name (dir E (torch_Tensor E)) ->
  getattr E (torch_Tensor E) name = Ok m ->
  isinstance E m [KMethodDescriptor; KWrapperDescriptor] = true ->
  get_tensor_method E = Ok s ->
  get_torch_obj_rule_map E names = Ok table ->
  dict_get E table m = Ok None ->
  hasattr E m "__wrapped__" = false ->
  ~ In m (_disallowed_function_ids E) ->
  is_user_defined_allowed E m = false ->
  lookup E names m = Ok (Some TorchInGraphFunctionVariable).
Proof.
  intros Hdir Hg Hk Hs Ht Hn Hw Hd Ha.
  assert (Hh : hashable E m = true).
  { unfold dict_get in Hn. now destruct (hashable E m). }
  assert (Hstr : isinstance E m [KStr] = false).
  { unfold isinstance in *. simpl in *. now destruct (kind_of E m). }
  rewrite (lookup_past_overrides E names m Hh Hd Ha Hstr).
  unfold unwrap_guard. rewrite Hw. cbn [bind].
  unfold rule_or_fallback. rewrite Ht. cbn [bind]. rewrite Hn. cbn [bind].
  now rewrite (is_in_graph_function_tensor_method E s name m Hs Hdir Hg Hk).
Qed.

Lemma lookup_tensor_method_witness :
  lookup World.env [("m.Ctx", TorchCtxManagerClassVariable)] 80
  = Ok (Some TorchInGraphFunctionVariable).
Proof.
  apply (lookup_tensor_method World.env _ [(30, TorchCtxManagerClassVariable)]
           [80; 82] "add" 80);
    try reflexivity.
  - simpl. now left.
  - intros [].
Defined.

(** ** Which objects a rule or a membership reaches *)

Section Reach.

Variable E : Env.







End Reach.


